(** * pendulum_js: the pendulum motion model and its input controller

    The repository is a three.js scene with a row of pendulums.  Two
    variants of the program exist: [src/main.js] integrates a damped
    pendulum and reacts to the mouse (module [Physics]);
    the second source file derives the angle from elapsed time alone
    (module [Kinematic]).

    Every quantity of the program is a JavaScript Number.  The
    definitions below are written once over an interface [Number] of the
    arithmetic the source uses; the program runs on its instance
    [binary64]: IEEE 754 double precision, as the kernel's primitive
    floats ([Math.sin] and [Math.cos], which ECMAScript leaves
    implementation-approximated, are parameters of the instance). *)

From Stdlib Require Import ZArith QArith Floats List Bool Lia.
Import ListNotations.

Set Warnings "-inexact-float".

Set Implicit Arguments.

(** ** JavaScript Numbers *)

Declare Scope num_scope.
Delimit Scope num_scope with num.

Class Number (num : Type) : Type := {
  (** a decimal literal of the source text *)
  lit : Q -> num;
  add : num -> num -> num;
  sub : num -> num -> num;
  mul : num -> num -> num;
  div : num -> num -> num;
  neg : num -> num;
  Math_sin : num -> num;
  Math_cos : num -> num;
  Math_PI : num
}.

Notation "a + b" := (add a b) : num_scope.
Notation "a - b" := (sub a b) : num_scope.
Notation "a * b" := (mul a b) : num_scope.
Notation "a / b" := (div a b) : num_scope.
Notation "- a" := (neg a) : num_scope.

(** The double nearest to an integer below 2^63 (exact below 2^53). *)
Definition float_of_Z (z : Z) : float :=
  match z with
  | Z0 => 0%float
  | Zpos _ => of_uint63 (Uint63.of_Z z)
  | Zneg p => (- of_uint63 (Uint63.of_Z (Zpos p)))%float
  end.

(** A decimal literal [n/d] denotes the double nearest to it; when [n] and
    [d] are below 2^53 that is the correctly rounded quotient of the two
    (exact) integers. *)
Definition float_of_literal (q : Q) : float :=
  (float_of_Z (Qnum q) / float_of_Z (Zpos (Qden q)))%float.

(** [Math.PI], the double nearest to pi. *)
Definition float_PI : float := 0x1.921fb54442d18p+1%float.

Definition binary64 (sin cos : float -> float) : Number float := {|
  lit := float_of_literal;
  add := PrimFloat.add;
  sub := PrimFloat.sub;
  mul := PrimFloat.mul;
  div := PrimFloat.div;
  neg := PrimFloat.opp;
  Math_sin := sin;
  Math_cos := cos;
  Math_PI := float_PI
|}.

(** ** The part of three.js the pendulums touch

    A [Mesh] carries a position and a rotation (Euler angles); the
    pendulum methods assign [rotation.z] and nothing else. *)
Module THREE.
Section Objects.
Context {num : Type}.

Record Vector3 : Type := { x : num; y : num; z : num }.

Record Mesh : Type := { position : Vector3; rotation : Vector3 }.

(** [mesh.rotation.z = a] *)
Definition set_rotation_z (mesh : Mesh) (a : num) : Mesh :=
  {| position := position mesh;
     rotation := {| x := x (rotation mesh);
                    y := y (rotation mesh);
                    z := a |} |}.
End Objects.
Arguments Vector3 : clear implicits.
Arguments Mesh : clear implicits.
End THREE.

(** ** The kinematic variant *)
Module Kinematic.
Section Pendulum_class.
Context {num : Type} {N : Number num}.
Local Open Scope num_scope.

Record Pendulum : Type := {
  string : THREE.Mesh num;
  ball : THREE.Mesh num;
  frequency : num;
  amplitude : num
}.

Definition constructor (stringMesh ballMesh : THREE.Mesh num)
    (frequency amplitude : num) : Pendulum :=
  {| string := stringMesh; ball := ballMesh;
     frequency := frequency; amplitude := amplitude |}.

(** The local [angle] of [update]. *)
Definition update_angle (this : Pendulum) (totalTime : num) : num :=
  amplitude this * Math_cos ((frequency this * totalTime) / lit 1000).

Definition update (this : Pendulum) (totalTime : num) : Pendulum :=
  let angle := update_angle this totalTime in
  let this := {| string := THREE.set_rotation_z (string this) angle;
                 ball := ball this;
                 frequency := frequency this;
                 amplitude := amplitude this |} in
  {| string := string this;
     ball := THREE.set_rotation_z (ball this) angle;
     frequency := frequency this;
     amplitude := amplitude this |}.
End Pendulum_class.
Arguments Pendulum : clear implicits.
End Kinematic.

(** ** The physics variant *)
Module Physics.
Section Pendulum_class.
Context {num : Type} {N : Number num}.
Local Open Scope num_scope.

(** [window], as far as the program reads it. *)
Record Window : Type := { innerWidth : num }.

Record Pendulum : Type := {
  string : THREE.Mesh num;
  ball : THREE.Mesh num;
  frequency : num;
  amplitude : num;
  isSwinging : bool;
  angle : num;
  velocity : num;
  lastUpdateTime : num
}.

(** Field assignments, [this.f = v]. *)
Definition set_string (this : Pendulum) (v : THREE.Mesh num) : Pendulum :=
  {| string := v; ball := ball this; frequency := frequency this;
     amplitude := amplitude this; isSwinging := isSwinging this;
     angle := angle this; velocity := velocity this;
     lastUpdateTime := lastUpdateTime this |}.

Definition set_ball (this : Pendulum) (v : THREE.Mesh num) : Pendulum :=
  {| string := string this; ball := v; frequency := frequency this;
     amplitude := amplitude this; isSwinging := isSwinging this;
     angle := angle this; velocity := velocity this;
     lastUpdateTime := lastUpdateTime this |}.

Definition set_isSwinging (this : Pendulum) (v : bool) : Pendulum :=
  {| string := string this; ball := ball this; frequency := frequency this;
     amplitude := amplitude this; isSwinging := v;
     angle := angle this; velocity := velocity this;
     lastUpdateTime := lastUpdateTime this |}.

Definition set_angle (this : Pendulum) (v : num) : Pendulum :=
  {| string := string this; ball := ball this; frequency := frequency this;
     amplitude := amplitude this; isSwinging := isSwinging this;
     angle := v; velocity := velocity this;
     lastUpdateTime := lastUpdateTime this |}.

Definition set_velocity (this : Pendulum) (v : num) : Pendulum :=
  {| string := string this; ball := ball this; frequency := frequency this;
     amplitude := amplitude this; isSwinging := isSwinging this;
     angle := angle this; velocity := v;
     lastUpdateTime := lastUpdateTime this |}.

Definition set_lastUpdateTime (this : Pendulum) (v : num) : Pendulum :=
  {| string := string this; ball := ball this; frequency := frequency this;
     amplitude := amplitude this; isSwinging := isSwinging this;
     angle := angle this; velocity := velocity this;
     lastUpdateTime := v |}.

Definition constructor (stringMesh ballMesh : THREE.Mesh num)
    (frequency amplitude : num) : Pendulum :=
  {| string := stringMesh; ball := ballMesh;
     frequency := frequency; amplitude := amplitude;
     isSwinging := false;
     angle := lit 0; velocity := lit 0; lastUpdateTime := lit 0 |}.

Definition updatePendulumPosition (this : Pendulum) : Pendulum :=
  let this := set_string this (THREE.set_rotation_z (string this) (angle this)) in
  set_ball this (THREE.set_rotation_z (ball this) (angle this)).

(** The second argument, the pointer's [y], is never read. *)
Definition setAngleFromMouse (window : Window) (this : Pendulum) (x y : num)
    : Pendulum :=
  let relativeX := x - innerWidth window / lit 2 in
  let this :=
    set_angle this
      ((relativeX / (innerWidth window / lit 2)) * Math_PI / lit 4) in
  updatePendulumPosition this.

Definition update (this : Pendulum) (totalTime : num) : Pendulum :=
  let this :=
    if isSwinging this then
      let deltaTime := (totalTime - lastUpdateTime this) / lit 1000 in
      let this := set_lastUpdateTime this totalTime in
      let acceleration := - lit 9.81 / lit 8 * Math_sin (angle this) in
      let this := set_velocity this (velocity this + acceleration * deltaTime) in
      let this := set_angle this (angle this + velocity this * deltaTime) in
      set_velocity this (velocity this * lit 0.99995)
    else this in
  updatePendulumPosition this.

Definition startSwinging (this : Pendulum) (totalTime : num) : Pendulum :=
  let this := set_isSwinging this true in
  let this := set_lastUpdateTime this totalTime in
  set_velocity this (lit 0).

Definition stopSwinging (this : Pendulum) : Pendulum :=
  set_isSwinging this false.
End Pendulum_class.
Arguments Pendulum : clear implicits.
Arguments Window : clear implicits.

(** *** [main]: the pointer handlers and the render loop

  The handlers are closures over the module's variables ([isDragging],
  [lastMouseX], [lastMouseY], [clickAngle]) and over [pendulums],
  [startTime] and [lastFrameTime] of [main]; [State] gathers them,
  together with the callbacks handed to [setTimeout] that have not run
  yet.  A callback is kept as data: which closure it is and which
  pendulum it captured (by its index in [pendulums], an array that is
  never changed once filled). *)
Section Main.
Context {num : Type} {N : Number num}.
Local Open Scope num_scope.

Record MouseEvent : Type := { clientX : num; clientY : num }.

Inductive Callback : Type :=
| setAngleFromMouse_callback (index : nat)   (* the closure made in [update] *)
| startSwinging_callback (index : nat).      (* the closure made in [onMouseUp] *)

(** [setTimeout(callback, delay)], [delay] in milliseconds. *)
Record Timer : Type := { callback : Callback; delay : Z }.

Record State : Type := {
  isDragging : bool;
  lastMouseX : num;
  lastMouseY : num;
  clickAngle : num;
  pendulums : list (Pendulum num);
  startTime : option num;       (* [None] is [null] *)
  lastFrameTime : option num;
  timers : list Timer
}.

Definition set_pendulums (s : State) (v : list (Pendulum num)) : State :=
  {| isDragging := isDragging s; lastMouseX := lastMouseX s;
     lastMouseY := lastMouseY s; clickAngle := clickAngle s;
     pendulums := v; startTime := startTime s;
     lastFrameTime := lastFrameTime s; timers := timers s |}.

Definition set_pointer (s : State) (dragging : bool) (mx my : num) : State :=
  {| isDragging := dragging; lastMouseX := mx; lastMouseY := my;
     clickAngle := clickAngle s; pendulums := pendulums s;
     startTime := startTime s; lastFrameTime := lastFrameTime s;
     timers := timers s |}.

Definition set_isDragging (s : State) (v : bool) : State :=
  set_pointer s v (lastMouseX s) (lastMouseY s).

Definition set_startTime (s : State) (v : option num) : State :=
  {| isDragging := isDragging s; lastMouseX := lastMouseX s;
     lastMouseY := lastMouseY s; clickAngle := clickAngle s;
     pendulums := pendulums s; startTime := v;
     lastFrameTime := lastFrameTime s; timers := timers s |}.

Definition set_lastFrameTime (s : State) (v : option num) : State :=
  {| isDragging := isDragging s; lastMouseX := lastMouseX s;
     lastMouseY := lastMouseY s; clickAngle := clickAngle s;
     pendulums := pendulums s; startTime := startTime s;
     lastFrameTime := v; timers := timers s |}.

(** [setTimeout]: one more pending callback. *)
Definition setTimeout (s : State) (cb : Callback) (ms : Z) : State :=
  {| isDragging := isDragging s; lastMouseX := lastMouseX s;
     lastMouseY := lastMouseY s; clickAngle := clickAngle s;
     pendulums := pendulums s; startTime := startTime s;
     lastFrameTime := lastFrameTime s;
     timers := timers s ++ [ {| callback := cb; delay := ms |} ] |}.

(** The indices [Array.prototype.forEach] visits, in order. *)
Definition indices (s : State) : list nat := seq 0 (length (pendulums s)).

(** The effect of a method call on the pendulum at [index]; a callback
    holds its pendulum, so its index always lies within the row. *)
Fixpoint at_index (index : nat) (f : Pendulum num -> Pendulum num)
    (l : list (Pendulum num)) : list (Pendulum num) :=
  match l, index with
  | [], _ => []
  | p :: l', O => f p :: l'
  | p :: l', S i => p :: at_index i f l'
  end.

(** [value - startTime], where [null] converts to [0]. *)
Definition since (start : option num) (value : num) : num :=
  match start with
  | Some t => value - t
  | None => value - lit 0
  end.

Definition onMouseDown (window : Window num) (s : State) (event : MouseEvent)
    : State :=
  let s := set_pointer s true (clientX event) (clientY event) in
  set_pendulums s
    (map (fun pendulum =>
            let pendulum := stopSwinging pendulum in
            setAngleFromMouse window pendulum (lastMouseX s) (lastMouseY s))
         (pendulums s)).

Definition onMouseMove (window : Window num) (s : State) (event : MouseEvent)
    : State :=
  if isDragging s then
    let s := set_pointer s (isDragging s) (clientX event) (clientY event) in
    set_pendulums s
      (map (fun pendulum =>
              setAngleFromMouse window pendulum (lastMouseX s) (lastMouseY s))
           (pendulums s))
  else s.

Definition onMouseUp (s : State) (event : MouseEvent) : State :=
  let s := set_isDragging s false in
  fold_left
    (fun s index =>
       setTimeout s (startSwinging_callback index) (Z.of_nat index * 100))
    (indices s) s.

(** [update(deltaTime, totalTime)] of [main]. *)
Definition main_update (s : State) (deltaTime totalTime : num) : State :=
  if isDragging s then
    fold_left
      (fun s index =>
         setTimeout s (setAngleFromMouse_callback index) (Z.of_nat index * 30))
      (indices s) s
  else
    set_pendulums s (map (fun p => update p totalTime) (pendulums s)).

(** One frame; rendering and the request for the next frame do not
    touch the state. *)
Definition animationFrame (s : State) (time : num) : State :=
  let s := match startTime s with
           | None => set_startTime s (Some time)
           | Some _ => s
           end in
  let s := match lastFrameTime s with
           | None => set_lastFrameTime s (Some time)
           | Some _ => s
           end in
  let deltaTime := since (lastFrameTime s) time in
  let s := set_lastFrameTime s (Some time) in
  let totalTime := since (startTime s) time in
  main_update s deltaTime totalTime.

(** [createPendulum(scene, origin, frequency, amplitude)]: two fresh
    meshes, unrotated.  [position.add(origin)] adds [origin] to the
    position (0, 0, 0) of a new mesh, and [translateY(6)] then adds
    (0, 6, 0) to it (their geometries and materials play no part in the
    motion). *)
Definition createPendulum (origin : THREE.Vector3 num)
    (frequency amplitude : num) : Pendulum num :=
  let mesh :=
    {| THREE.position := {| THREE.x := lit 0 + THREE.x origin + lit 0;
                            THREE.y := lit 0 + THREE.y origin + lit 6;
                            THREE.z := lit 0 + THREE.z origin + lit 0 |};
       THREE.rotation := {| THREE.x := lit 0;
                            THREE.y := lit 0;
                            THREE.z := lit 0 |} |} in
  constructor mesh mesh frequency amplitude.

(** The pendulum [main] builds at turn [i] of its loop (the amplitude is
    the default, 0.5), and the row of twelve. *)
Definition pendulum_number (i : num) : Pendulum num :=
  createPendulum
    {| THREE.x := lit 0; THREE.y := lit 0; THREE.z := - i * lit 1.2 |}
    (lit 1.2 + i * lit 0.05) (lit 0.5).

Definition row : list (Pendulum num) :=
  map (fun i : Z => pendulum_number (lit (inject_Z i)))
      [0; 1; 2; 3; 4; 5; 6; 7; 8; 9; 10; 11]%Z.

(** The state [main] starts from, before the first frame. *)
Definition initial : State :=
  {| isDragging := false;
     lastMouseX := lit 0;
     lastMouseY := lit 0;
     clickAngle := lit 0;
     pendulums := row;
     startTime := None;
     lastFrameTime := None;
     timers := [] |}.

(** A pending callback runs: [now] is what [performance.now()] returns
    at that moment, [window] the window as it is then. *)
Definition run_callback (window : Window num) (now : num) (s : State)
    (cb : Callback) : State :=
  match cb with
  | setAngleFromMouse_callback index =>
      set_pendulums s
        (at_index index
           (fun pendulum =>
              setAngleFromMouse window pendulum (lastMouseX s) (lastMouseY s))
           (pendulums s))
  | startSwinging_callback index =>
      set_pendulums s
        (at_index index
           (fun pendulum => startSwinging pendulum (since (startTime s) now))
           (pendulums s))
  end.
End Main.
Arguments State : clear implicits.
Arguments MouseEvent : clear implicits.
End Physics.

(** ** Vocabulary of the specification *)
Module Spec.
Section Words.
Context {num : Type} {N : Number num}.
Local Open Scope num_scope.

(** The integration step as section 4.2 of the specification writes it:
    from [angle], [velocity], [lastUpdateTime] and the time [now] to the
    new [angle], [velocity] and [lastUpdateTime]. *)
Definition integration_step (angle velocity lastUpdateTime now : num)
    : num * num * num :=
  let deltaTimeSeconds := (now - lastUpdateTime) / lit 1000 in
  let acceleration := - (lit 9.81 / lit 8) * Math_sin angle in
  let velocity := velocity + acceleration * deltaTimeSeconds in
  let angle := angle + velocity * deltaTimeSeconds in
  let velocity := velocity * lit 0.99995 in
  (angle, velocity, now).

(** The angle the kinematic variant displays at [totalTimeMs]. *)
Definition kinematic_angle (frequency amplitude totalTimeMs : num) : num :=
  amplitude * Math_cos (frequency * totalTimeMs / lit 1000).

(** The linear map of the pointer's [x] onto [-45 deg, +45 deg]. *)
Definition pointer_angle (innerWidth x : num) : num :=
  ((x - innerWidth / lit 2) / (innerWidth / lit 2)) * Math_PI / lit 4.

(** The motion state of a pendulum, and what it displays. *)
Definition motion (p : Physics.Pendulum num) : num * num * bool * num :=
  (Physics.angle p, Physics.velocity p, Physics.isSwinging p,
   Physics.lastUpdateTime p).

Definition displayed (p : Physics.Pendulum num) : num * num :=
  (THREE.z (THREE.rotation (Physics.string p)),
   THREE.z (THREE.rotation (Physics.ball p))).

(** The calls a pendulum receives. *)
Inductive Call : Type :=
| call_update (totalTime : num)
| call_setAngleFromMouse (window : Physics.Window num) (x y : num)
| call_startSwinging (totalTime : num)
| call_stopSwinging.

Definition perform (this : Physics.Pendulum num) (c : Call)
    : Physics.Pendulum num :=
  match c with
  | call_update totalTime => Physics.update this totalTime
  | call_setAngleFromMouse window x y =>
      Physics.setAngleFromMouse window this x y
  | call_startSwinging totalTime => Physics.startSwinging this totalTime
  | call_stopSwinging => Physics.stopSwinging this
  end.

Definition perform_all (this : Physics.Pendulum num) (calls : list Call)
    : Physics.Pendulum num :=
  fold_left perform calls this.

(** The calls that end in [updatePendulumPosition]. *)
Definition writes_display (c : Call) : bool :=
  match c with
  | call_update _ | call_setAngleFromMouse _ _ _ => true
  | call_startSwinging _ | call_stopSwinging => false
  end.

(** A run of [update] calls, one per frame. *)
Definition frames (this : Physics.Pendulum num) (times : list num)
    : Physics.Pendulum num :=
  fold_left Physics.update times this.

End Words.
Arguments Call : clear implicits.

End Spec.

(** ** Running the model on doubles *)
Module Binary64.
Local Open Scope float_scope.

(** A [Math.sin] and a [Math.cos] to run the model with: the Taylor
    polynomials of degree 7 and 6, in a form that keeps the sign of a
    zero argument as ECMAScript asks of [Math.sin]. *)
Definition taylor_sin (x : float) : float :=
  x * (1 - x * x / 6 * (1 - x * x / 20 * (1 - x * x / 42))).

Definition taylor_cos (x : float) : float :=
  1 - x * x / 2 * (1 - x * x / 12 * (1 - x * x / 30)).

Definition js : Number float := binary64 taylor_sin taylor_cos.

Definition full_hd : Physics.Window float := {| Physics.innerWidth := 1920 |}.

(** The button goes down in the middle of the window. *)
Definition pressed : Physics.State float :=
  Physics.onMouseDown (N := js) full_hd (Physics.initial (N := js))
    {| Physics.clientX := 960; Physics.clientY := 540 |}.

(** The first pendulum dragged to three quarters of the window, then
    released at 100 ms. *)
Definition released : Physics.Pendulum float :=
  Physics.startSwinging (N := js)
    (Physics.setAngleFromMouse (N := js) full_hd
       (Physics.pendulum_number (N := js) 0) 1440 540)
    100.

(** Two pendulums at the same place with different parameters, and a
    drag, a release and two frames around a stop. *)
Definition slow : Physics.Pendulum float :=
  Physics.createPendulum (N := js)
    {| THREE.x := 0; THREE.y := 0; THREE.z := 0 |} 1.2 0.5.

Definition fast : Physics.Pendulum float :=
  Physics.createPendulum (N := js)
    {| THREE.x := 0; THREE.y := 0; THREE.z := 0 |} 1.75 0.3.

Definition session : list (Spec.Call float) :=
  [Spec.call_setAngleFromMouse full_hd 1440 540;
   Spec.call_startSwinging 100;
   Spec.call_update 116;
   Spec.call_stopSwinging;
   Spec.call_update 133].

(** The first pendulum of the kinematic variant's row, built as in its
    [createPendulum]. *)
Definition kinematic_pendulum : Kinematic.Pendulum float :=
  let mesh :=
    {| THREE.position := {| THREE.x := 0; THREE.y := 6; THREE.z := 0 |};
       THREE.rotation := {| THREE.x := 0; THREE.y := 0; THREE.z := 0 |} |} in
  Kinematic.constructor mesh mesh 1.2 0.5.

(** What a double is, read off its specification. *)
Definition is_zero_spec (x : spec_float) : bool :=
  match x with
  | S754_zero _ => true
  | _ => false
  end.

Definition is_finite_spec (x : spec_float) : bool :=
  match x with
  | S754_zero _ | S754_finite _ _ _ => true
  | _ => false
  end.

(** A finite double below 2^1022 in magnitude, on the specification. *)
Definition moderate_spec (x : spec_float) : Prop :=
  match x with
  | S754_zero _ => True
  | S754_finite _ m e => (Z.pos m < 2 ^ 53 /\ e <= 969)%Z
  | _ => False
  end.

(** A time in milliseconds as a clock gives it: a finite double, here
    of magnitude at most 1e300. *)
Definition timestamp (t : float) : bool := abs t <=? 1e300.

(** Every [update] of the run [times], started with [lastUpdateTime =
    last], sees a finite elapsed time. *)
Fixpoint elapsed_finite (last : float) (times : list float) : bool :=
  match times with
  | [] => true
  | totalTime :: later =>
      is_finite ((totalTime - last) / 1000) && elapsed_finite totalTime later
  end.

(** *** Runs of the swing

    A sine to run bounded swings with: [taylor_sin], cut off where the
    polynomial leaves [-1, 1]. *)
Definition clipped_sin (x : float) : float :=
  let y := taylor_sin x in if abs y <=? 1 then y else 0.

(** Every [update] of the run [times], started with [lastUpdateTime =
    last], sees an elapsed time of at most 62.5 ms, forwards or
    backwards. *)
Fixpoint paced (last : float) (times : list float) : bool :=
  match times with
  | [] => true
  | totalTime :: later =>
      (abs ((totalTime - last) / 1000) <=? 0.0625) && paced totalTime later
  end.

(** Every [update] of the run [times] computes the same [deltaTime]. *)
Fixpoint steady (deltaTime last : float) (times : list float) : Prop :=
  match times with
  | [] => True
  | totalTime :: later =>
      (totalTime - last) / 1000 = deltaTime /\ steady deltaTime totalTime later
  end.

(** The times of [n] frames 8 ms apart, the first at 16 ms. *)
Definition frame_times (n : nat) : list float :=
  map (fun k => float_of_Z (8 * Z.of_nat k)) (seq 2 n).

(** A pendulum at rest 51 units in the last place off the vertical
    (about 2.5e-322 rad), swinging since 8 ms. *)
Definition faint : Physics.Pendulum float :=
  Physics.update (N := js)
    (Physics.startSwinging (N := js)
       (Physics.set_angle (Physics.pendulum_number (N := js) 0) 0x33p-1074) 8)
    8.

(** One more frame, 8 ms after the last, on a clock set back to 0. *)
Definition next_frame (p : Physics.Pendulum float) : Physics.Pendulum float :=
  Physics.update (N := js) (Physics.set_lastUpdateTime p 0) 8.

(** *** Magnitudes

    The magnitude of a finite double, in units of 2^-1074 (the least
    positive double); [within b x]: [x] is finite and at most [b] in
    magnitude; [bound b]: [b] is a positive double below 2^954. *)
Definition magnitude (x : spec_float) : Z :=
  match x with
  | S754_finite _ m e => (Z.pos m * 2 ^ (e + 1074))%Z
  | _ => 0%Z
  end.

Definition within (b x : float) : Prop :=
  is_finite x = true /\ (magnitude (Prim2SF x) <= magnitude (Prim2SF b))%Z.

Definition bound (b : float) : Prop :=
  exists m e, Prim2SF b = S754_finite false m e /\ (e <= 900)%Z.

(** [mrs] is [M] shifted to the right by [k] bits: the mantissa is at
    most the quotient, and the round bit is set only if the remainder is
    at least half. *)
Definition shifted (M k : Z) (mrs : shr_record) : Prop :=
  (0 <= shr_m mrs
   /\ shr_m mrs * 2 ^ k <= M
   /\ (shr_r mrs = true -> 2 * (shr_m mrs * 2 ^ k) + 2 ^ k <= 2 * M))%Z.
End Binary64.

(** ** The kinematic variant's [main] *)
Module KinematicMain.
Section Main.
Context {num : Type} {N : Number num}.
Local Open Scope num_scope.

(** [pendulums], [startTime] and [lastFrameTime] of [main], which its two
    closures share. *)
Record State : Type := {
  pendulums : list (Kinematic.Pendulum num);
  startTime : option num;       (* [None] is [null] *)
  lastFrameTime : option num
}.

(** [update(deltaTime, totalTime)] of [main]. *)
Definition main_update (s : State) (deltaTime totalTime : num) : State :=
  {| pendulums := map (fun p => Kinematic.update p totalTime) (pendulums s);
     startTime := startTime s;
     lastFrameTime := lastFrameTime s |}.

Definition animationFrame (s : State) (time : num) : State :=
  let s := match startTime s with
           | None => {| pendulums := pendulums s; startTime := Some time;
                        lastFrameTime := lastFrameTime s |}
           | Some _ => s
           end in
  let s := match lastFrameTime s with
           | None => {| pendulums := pendulums s; startTime := startTime s;
                        lastFrameTime := Some time |}
           | Some _ => s
           end in
  let deltaTime := Physics.since (lastFrameTime s) time in
  let s := {| pendulums := pendulums s; startTime := startTime s;
              lastFrameTime := Some time |} in
  let totalTime := Physics.since (startTime s) time in
  main_update s deltaTime totalTime.

(** A run of frames, one call of [animationFrame] per time. *)
Definition run (s : State) (times : list num) : State :=
  fold_left animationFrame times s.
End Main.
Arguments State : clear implicits.
End KinematicMain.

(** ** The page at work

  [main] of the physics variant hands [onMouseDown], [onMouseMove] and
  [onMouseUp] to [window.addEventListener], [animationFrame] to
  [requestAnimationFrame] and its closures to [setTimeout]; from then on
  the program runs only when the browser calls one of them. *)
Module Page.
Section Happenings.
Context {num : Type} {N : Number num}.
Import Physics.

Inductive Happening : Type :=
| mousedown (window : Window num) (event : MouseEvent num)
| mousemove (window : Window num) (event : MouseEvent num)
| mouseup (event : MouseEvent num)
| frame (time : num)
| timeout (window : Window num) (now : num) (k : nat).
    (* the pending callback number [k] runs, [performance.now()] being [now] *)

Definition set_timers (s : State num) (v : list Timer) : State num :=
  {| isDragging := isDragging s; lastMouseX := lastMouseX s;
     lastMouseY := lastMouseY s; clickAngle := clickAngle s;
     pendulums := pendulums s; startTime := startTime s;
     lastFrameTime := lastFrameTime s; timers := v |}.

(** A pending callback runs once and is pending no more. *)
Definition fire (window : Window num) (now : num) (s : State num) (k : nat)
    : State num :=
  match nth_error (timers s) k with
  | Some timer =>
      run_callback window now
        (set_timers s (firstn k (timers s) ++ skipn (S k) (timers s)))
        (callback timer)
  | None => s
  end.

Definition react (s : State num) (h : Happening) : State num :=
  match h with
  | mousedown window event => onMouseDown window s event
  | mousemove window event => onMouseMove window s event
  | mouseup event => onMouseUp s event
  | frame time => animationFrame s time
  | timeout window now k => fire window now s k
  end.

Definition react_all (s : State num) (hs : list Happening) : State num :=
  fold_left react hs s.

(** The happenings in which the program's own listeners run; in a
    [timeout] the browser first takes the callback off its list. *)
Definition is_listener (h : Happening) : bool :=
  match h with
  | timeout _ _ _ => false
  | _ => true
  end.

(** A press of the button. *)
Definition is_press (h : Happening) : bool :=
  match h with
  | mousedown _ _ => true
  | _ => false
  end.

(** The happenings that find the button up and leave it so. *)
Definition is_passive (h : Happening) : bool :=
  match h with
  | frame _ | mousemove _ _ => true
  | _ => false
  end.

(** The timers one [forEach] over the row asks for: one per pendulum,
    [index * step] ms later. *)
Definition cascade (cb : nat -> Callback) (step : Z) (n : nat) : list Timer :=
  map (fun index => {| callback := cb index; delay := Z.of_nat index * step |})
      (seq 0 n).

(** What no method of [Pendulum] and no listener writes: the parameters,
    where the meshes stand, and their rotations about x and y. *)
Definition built (p : Pendulum num)
    : num * num * (THREE.Vector3 num * num * num)
      * (THREE.Vector3 num * num * num) :=
  (frequency p, amplitude p,
   (THREE.position (string p),
    THREE.x (THREE.rotation (string p)), THREE.y (THREE.rotation (string p))),
   (THREE.position (ball p),
    THREE.x (THREE.rotation (ball p)), THREE.y (THREE.rotation (ball p)))).

(** The string and the ball are drawn at the pendulum's angle. *)
Definition mirrored (p : Pendulum num) : Prop :=
  Spec.displayed p = (angle p, angle p).
End Happenings.
Arguments Happening : clear implicits.
End Page.

Unset Implicit Arguments.

(** * Properties *)

(** ** Properties that hold whatever the arithmetic *)
Section Structure.
Context {num : Type} {N : Number num}.
Local Open Scope num_scope.
Import Physics.

Lemma updatePendulumPosition_motion (this : Pendulum num) :
  Spec.motion (updatePendulumPosition this) = Spec.motion this.
Proof. reflexivity. Qed.

Lemma updatePendulumPosition_displayed (this : Pendulum num) :
  Spec.displayed (updatePendulumPosition this) = (angle this, angle this).
Proof. reflexivity. Qed.

Lemma update_not_swinging (this : Pendulum num) (totalTime : num) :
  isSwinging this = false ->
  update this totalTime = updatePendulumPosition this.
Proof. intros H. unfold update. now rewrite H. Qed.

Lemma update_displayed (this : Pendulum num) (totalTime : num) :
  Spec.displayed (update this totalTime)
  = (angle (update this totalTime), angle (update this totalTime)).
Proof. unfold update. now destruct (isSwinging this). Qed.

Lemma setAngleFromMouse_displayed window (this : Pendulum num) (x y : num) :
  Spec.displayed (setAngleFromMouse window this x y)
  = (angle (setAngleFromMouse window this x y),
     angle (setAngleFromMouse window this x y)).
Proof. reflexivity. Qed.

(** Once the display mirrors the angle, every call keeps it so. *)
Lemma mirror_preserved (this : Pendulum num) (c : Spec.Call num) :
  Spec.displayed this = (angle this, angle this) ->
  Spec.displayed (Spec.perform this c)
  = (angle (Spec.perform this c), angle (Spec.perform this c)).
Proof.
  intros H. destruct c as [t | w x y | t | ]; simpl.
  - apply update_displayed.
  - apply setAngleFromMouse_displayed.
  - exact H.
  - exact H.
Qed.

Lemma mirror_preserved_all (calls : list (Spec.Call num)) (this : Pendulum num) :
  Spec.displayed this = (angle this, angle this) ->
  Spec.displayed (Spec.perform_all this calls)
  = (angle (Spec.perform_all this calls), angle (Spec.perform_all this calls)).
Proof.
  revert this. induction calls as [ | c calls IH]; intros this H.
  - exact H.
  - apply (IH (Spec.perform this c)). now apply mirror_preserved.
Qed.

(** A pendulum displays its angle from [createPendulum] on. *)
Lemma created_mirrored (origin : THREE.Vector3 num) (frequency amplitude : num)
    (calls : list (Spec.Call num)) :
  let p := Spec.perform_all (createPendulum origin frequency amplitude) calls in
  Spec.displayed p = (angle p, angle p).
Proof. apply mirror_preserved_all. reflexivity. Qed.

(** C2.  Kinematic variant: [update(totalTimeMs)] writes
    [amplitude * cos(frequency * totalTimeMs / 1000)] to the rotation of
    the string and of the ball and leaves the parameters alone; the
    pendulum it returns is a fixed point of the same call (idempotence)
    and is the same whatever call came before (no accumulated state). *)
Theorem kinematic_update_closed_form
    (this : Kinematic.Pendulum num) (totalTimeMs : num) :
  let next := Kinematic.update this totalTimeMs in
  let angle :=
    Spec.kinematic_angle (Kinematic.frequency this) (Kinematic.amplitude this)
      totalTimeMs in
  THREE.z (THREE.rotation (Kinematic.string next)) = angle
  /\ THREE.z (THREE.rotation (Kinematic.ball next)) = angle
  /\ Kinematic.frequency next = Kinematic.frequency this
  /\ Kinematic.amplitude next = Kinematic.amplitude this
  /\ Kinematic.update next totalTimeMs = next
  /\ (forall earlier : num,
        Kinematic.update (Kinematic.update this earlier) totalTimeMs = next).
Proof.
  destruct this as [[sp [sx sy sz]] [bp [bx b_y bz]] f a].
  cbv zeta. repeat split.
Qed.

(** C4.  [startSwinging(currentTimeMs)], in either mode: [isSwinging]
    becomes true, [velocity] becomes 0, [lastUpdateTime] becomes
    [currentTimeMs]; the angle, the parameters and the meshes are kept.
    The next [update] therefore measures its [deltaTime] from
    [currentTimeMs]: it is the integration step taken from
    [lastUpdateTime = currentTimeMs] and [velocity = 0], whatever
    timestamp the pendulum held before. *)
Theorem startSwinging_resets (this : Pendulum num) (currentTimeMs : num) :
  let next := startSwinging this currentTimeMs in
  isSwinging next = true
  /\ velocity next = lit 0
  /\ lastUpdateTime next = currentTimeMs
  /\ angle next = angle this
  /\ (string next, ball next, frequency next, amplitude next)
     = (string this, ball this, frequency this, amplitude this)
  /\ (forall now : num,
        let deltaTime := (now - currentTimeMs) / lit 1000 in
        let acceleration := - lit 9.81 / lit 8 * Math_sin (angle this) in
        let stepped := update next now in
        velocity stepped = (lit 0 + acceleration * deltaTime) * lit 0.99995
        /\ angle stepped
           = angle this + (lit 0 + acceleration * deltaTime) * deltaTime
        /\ lastUpdateTime stepped = now)
  /\ (forall stale now : num,
        update (startSwinging (set_lastUpdateTime this stale) currentTimeMs) now
        = update next now).
Proof.
  cbv zeta. repeat split.
Qed.

(** C7.  After [setAngleFromMouse] (swinging or not) and after [update]
    (swinging or not) the rotation of the string and the rotation of the
    ball both hold the pendulum's angle, and so are equal.  The two other
    calls touch neither the angle nor the meshes, so a pendulum made by
    [createPendulum] displays its angle after any sequence of calls. *)
Theorem angle_mirrored_on_display
    (window : Window num) (this : Pendulum num) (x y totalTime : num) :
  let dragged := setAngleFromMouse window this x y in
  let stepped := update this totalTime in
  (THREE.z (THREE.rotation (string dragged)) = angle dragged
   /\ THREE.z (THREE.rotation (ball dragged)) = angle dragged
   /\ THREE.z (THREE.rotation (string dragged))
      = THREE.z (THREE.rotation (ball dragged)))
  /\ (THREE.z (THREE.rotation (string stepped)) = angle stepped
      /\ THREE.z (THREE.rotation (ball stepped)) = angle stepped
      /\ THREE.z (THREE.rotation (string stepped))
         = THREE.z (THREE.rotation (ball stepped)))
  /\ (forall (origin : THREE.Vector3 num) (frequency amplitude : num)
             (calls : list (Spec.Call num)),
        let p :=
          Spec.perform_all (createPendulum origin frequency amplitude) calls in
        THREE.z (THREE.rotation (string p)) = angle p
        /\ THREE.z (THREE.rotation (ball p)) = angle p).
Proof.
  cbv zeta. split; [ | split].
  - repeat split.
  - unfold update. destruct (isSwinging this); repeat split.
  - intros origin frequency amplitude calls.
    pose proof (created_mirrored origin frequency amplitude calls) as H.
    cbv zeta in H. unfold Spec.displayed in H.
    now injection H as -> ->.
Qed.

(** C8.  [stopSwinging()] clears [isSwinging] and keeps every other
    field, the velocity included; and an [update] of a pendulum that is
    not swinging keeps [angle], [velocity] and [lastUpdateTime]. *)
Theorem stopSwinging_only_clears_flag (this : Pendulum num) (totalTime : num) :
  stopSwinging this
  = {| string := string this; ball := ball this;
       frequency := frequency this; amplitude := amplitude this;
       isSwinging := false;
       angle := angle this; velocity := velocity this;
       lastUpdateTime := lastUpdateTime this |}
  /\ (isSwinging this = false ->
      angle (update this totalTime) = angle this
      /\ velocity (update this totalTime) = velocity this
      /\ lastUpdateTime (update this totalTime) = lastUpdateTime this
      /\ isSwinging (update this totalTime) = false).
Proof.
  split.
  - reflexivity.
  - intros H. rewrite (update_not_swinging this totalTime H). simpl.
    now rewrite H.
Qed.

Lemma perform_motion (p q : Pendulum num) (c : Spec.Call num) :
  Spec.motion p = Spec.motion q ->
  Spec.motion (Spec.perform p c) = Spec.motion (Spec.perform q c).
Proof.
  unfold Spec.motion. intros H. injection H as Ha Hv Hs Ht.
  destruct c as [t | w x y | t | ]; simpl.
  - unfold update. rewrite <- Hs.
    destruct (isSwinging p) eqn:Ep; simpl;
      rewrite ?Ep, <- ?Hs, ?Ha, ?Hv, ?Ht; reflexivity.
  - congruence.
  - congruence.
  - congruence.
Qed.

Lemma perform_displayed (p q : Pendulum num) (c : Spec.Call num) :
  Spec.motion p = Spec.motion q ->
  Spec.displayed p = Spec.displayed q \/ Spec.writes_display c = true ->
  Spec.displayed (Spec.perform p c) = Spec.displayed (Spec.perform q c).
Proof.
  intros Hm Hd.
  assert (Ha : angle (Spec.perform p c) = angle (Spec.perform q c)).
  { assert (Hm' := perform_motion _ _ c Hm).
    unfold Spec.motion in Hm'. now injection Hm' as Ha _ _ _. }
  destruct c as [t | w x y | t | ].
  - change (angle (update p t) = angle (update q t)) in Ha.
    change (Spec.displayed (update p t) = Spec.displayed (update q t)).
    rewrite !update_displayed. now rewrite Ha.
  - change (angle (setAngleFromMouse w p x y)
            = angle (setAngleFromMouse w q x y)) in Ha.
    change (Spec.displayed (setAngleFromMouse w p x y)
            = Spec.displayed (setAngleFromMouse w q x y)).
    rewrite !setAngleFromMouse_displayed. now rewrite Ha.
  - destruct Hd as [Hd | Hd]; [exact Hd | discriminate Hd].
  - destruct Hd as [Hd | Hd]; [exact Hd | discriminate Hd].
Qed.

Lemma perform_parameters (p : Pendulum num) (c : Spec.Call num) :
  frequency (Spec.perform p c) = frequency p
  /\ amplitude (Spec.perform p c) = amplitude p.
Proof.
  destruct c as [t | w x y | t | ]; simpl; try (split; reflexivity).
  unfold update. destruct (isSwinging p); split; reflexivity.
Qed.

(** C10.  Physics variant: [frequency] and [amplitude] are stored and
    never read.  Two pendulums with the same angle, velocity,
    [isSwinging] and [lastUpdateTime] have the same four values after
    any common sequence of [update], [setAngleFromMouse],
    [startSwinging] and [stopSwinging] calls, whatever their
    [frequency] and [amplitude], which the calls leave as they were.
    Their displayed rotations are the same as well when they were the
    same at the start, which is so when both pendulums display their
    angle, as every pendulum does from its construction on; or as soon as
    one call of the sequence wrote the display ([update] or
    [setAngleFromMouse]; the two other calls do not touch it). *)
Theorem motion_independent_of_parameters
    (calls : list (Spec.Call num)) (p q : Pendulum num) :
  Spec.motion p = Spec.motion q ->
  Spec.motion (Spec.perform_all p calls)
  = Spec.motion (Spec.perform_all q calls)
  /\ (Spec.displayed p = Spec.displayed q
      \/ (Spec.displayed p = (angle p, angle p)
          /\ Spec.displayed q = (angle q, angle q))
      \/ existsb Spec.writes_display calls = true ->
      Spec.displayed (Spec.perform_all p calls)
      = Spec.displayed (Spec.perform_all q calls))
  /\ (frequency (Spec.perform_all p calls),
      amplitude (Spec.perform_all p calls))
     = (frequency p, amplitude p)
  /\ (frequency (Spec.perform_all q calls),
      amplitude (Spec.perform_all q calls))
     = (frequency q, amplitude q).
Proof.
  intros Hm.
  assert (Hgen : forall calls p q,
            Spec.motion p = Spec.motion q ->
            Spec.motion (Spec.perform_all p calls)
            = Spec.motion (Spec.perform_all q calls)
            /\ (Spec.displayed p = Spec.displayed q
                \/ existsb Spec.writes_display calls = true ->
                Spec.displayed (Spec.perform_all p calls)
                = Spec.displayed (Spec.perform_all q calls))
            /\ (frequency (Spec.perform_all p calls),
                amplitude (Spec.perform_all p calls))
               = (frequency p, amplitude p)).
  { clear. intros calls.
    induction calls as [ | c calls IH]; intros p q Hm.
    - simpl. repeat split; try assumption.
      intros [Hd | Hd]; [exact Hd | discriminate Hd].
    - simpl.
      destruct (IH _ _ (perform_motion _ _ c Hm)) as (IHm & IHd & IHp).
      destruct (perform_parameters p c) as [Hfp Hap].
      unfold Spec.perform_all in *. repeat split.
      + exact IHm.
      + intros Hd. apply IHd.
        destruct (Spec.writes_display c) eqn:Hc.
        * left. apply perform_displayed; [exact Hm | now right].
        * simpl in Hd. destruct Hd as [Hd | Hd].
          -- left. apply perform_displayed; [exact Hm | now left].
          -- now right.
      + rewrite IHp. now rewrite Hfp, Hap. }
  destruct (Hgen calls p q Hm) as (H1 & H2 & H3).
  destruct (Hgen calls q p (eq_sym Hm)) as (_ & _ & H4).
  repeat split; try assumption.
  intros [Hd | [[Hp Hq] | Hw]]; apply H2.
  - now left.
  - left. rewrite Hp, Hq. unfold Spec.motion in Hm.
    injection Hm as Ha _ _ _. now rewrite Ha.
  - now right.
Qed.

(** *** The input controller *)

Lemma setTimeout_each (cb : nat -> Callback) (ms : nat -> Z)
    (l : list nat) (s : State num) :
  let s' := fold_left (fun s index => setTimeout s (cb index) (ms index)) l s in
  timers s'
  = timers s ++ map (fun index => {| callback := cb index; delay := ms index |}) l
  /\ pendulums s' = pendulums s
  /\ (isDragging s', lastMouseX s', lastMouseY s')
     = (isDragging s, lastMouseX s, lastMouseY s).
Proof.
  revert s. induction l as [ | i l IH]; intros s; simpl.
  - now rewrite app_nil_r.
  - destruct (IH (setTimeout s (cb i) (ms i))) as (Ht & Hp & Hd).
    simpl in *. rewrite Ht, Hp, Hd, <- app_assoc. repeat split.
Qed.

(** The frame update of a drag in progress: it sets no angle; it asks
    for one [setAngleFromMouse] per pendulum, [index * 30] ms later. *)
Lemma main_update_while_dragging (s : State num) (deltaTime totalTime : num) :
  isDragging s = true ->
  let s' := main_update s deltaTime totalTime in
  pendulums s' = pendulums s
  /\ timers s'
     = timers s
       ++ map (fun index =>
                 {| callback := setAngleFromMouse_callback index;
                    delay := Z.of_nat index * 30 |})
              (seq 0 (length (pendulums s))).
Proof.
  intros H. unfold main_update. rewrite H.
  destruct (setTimeout_each setAngleFromMouse_callback
              (fun index => (Z.of_nat index * 30)%Z) (indices s) s)
    as (Ht & Hp & _).
  split; [exact Hp | exact Ht].
Qed.

(** The handler of a pointer move during a drag: every pendulum has its
    angle set from the pointer before the handler returns, and no timer
    is asked for. *)
Lemma onMouseMove_while_dragging
    (window : Window num) (s : State num) (event : MouseEvent num) :
  isDragging s = true ->
  let s' := onMouseMove window s event in
  timers s' = timers s
  /\ pendulums s'
     = map (fun p => setAngleFromMouse window p (clientX event) (clientY event))
           (pendulums s)
  /\ Forall (fun p =>
               angle p
               = Spec.pointer_angle (innerWidth window) (clientX event))
            (pendulums s').
Proof.
  intros H. unfold onMouseMove. rewrite H. simpl. repeat split.
  apply Forall_forall. intros p Hp. apply in_map_iff in Hp.
  destruct Hp as (p0 & <- & _). reflexivity.
Qed.
End Structure.

(** ** Properties of the program on doubles *)
Section Doubles.
Local Open Scope float_scope.
Import Binary64.

(** *** The literals of the source *)

Lemma lit_binary64 :
  float_of_literal 0 = 0
  /\ float_of_literal 2 = 2
  /\ float_of_literal 4 = 4
  /\ float_of_literal 6 = 6
  /\ float_of_literal 8 = 8
  /\ float_of_literal 1000 = 1000
  /\ float_of_literal 9.81 = 9.81
  /\ float_of_literal 0.99995 = 0.99995
  /\ float_of_literal 1.2 = 1.2
  /\ float_of_literal 0.05 = 0.05
  /\ float_of_literal 0.5 = 0.5
  /\ float_PI = 3.141592653589793.
Proof. repeat split. Qed.

(** *** Classifying a double through its specification *)

Lemma SFcompare_finite_refl (s : bool) (m : positive) (e : Z) :
  SFcompare (S754_finite s m e) (S754_finite s m e) = Some Eq.
Proof.
  simpl. rewrite Z.compare_refl.
  assert (Pos.compare_cont Eq m m = Eq) as -> by apply Pos.compare_cont_refl.
  now destruct s.
Qed.

Lemma is_zero_Prim2SF (x : float) : is_zero x = is_zero_spec (Prim2SF x).
Proof.
  unfold is_zero. rewrite FloatAxioms.eqb_spec.
  change (Prim2SF zero) with (S754_zero false).
  destruct (Prim2SF x) as [s | s | | s m e]; try reflexivity.
  - now destruct s.
  - now destruct s.
Qed.

Lemma is_finite_Prim2SF (x : float) : is_finite x = is_finite_spec (Prim2SF x).
Proof.
  unfold is_finite, is_nan, is_infinity.
  rewrite !FloatAxioms.eqb_spec, abs_spec.
  change (Prim2SF infinity) with (S754_infinity false).
  destruct (Prim2SF x) as [s | s | | s m e]; try reflexivity.
  - now destruct s.
  - unfold SFeqb. rewrite SFcompare_finite_refl. reflexivity.
Qed.

Lemma is_zero_cases (x : float) : is_zero x = true -> x = 0 \/ x = -0.
Proof.
  rewrite is_zero_Prim2SF. intros H.
  rewrite <- (SF2Prim_Prim2SF x).
  destruct (Prim2SF x) as [[ | ] | | | ]; try discriminate;
    [right | left]; reflexivity.
Qed.

(** *** Arithmetic on zeros *)

Lemma mul_zero_l (x y : float) :
  is_zero x = true -> is_finite y = true -> is_zero (x * y) = true.
Proof.
  rewrite !is_zero_Prim2SF, is_finite_Prim2SF, mul_spec.
  destruct (Prim2SF x); try discriminate.
  destruct (Prim2SF y); try discriminate; reflexivity.
Qed.

Lemma mul_zero_r (x y : float) :
  is_finite x = true -> is_zero y = true -> is_zero (x * y) = true.
Proof.
  rewrite !is_zero_Prim2SF, is_finite_Prim2SF, mul_spec.
  destruct (Prim2SF y); try discriminate.
  destruct (Prim2SF x); try discriminate; reflexivity.
Qed.

Lemma add_zero (x y : float) :
  is_zero x = true -> is_zero y = true -> is_zero (x + y) = true.
Proof.
  rewrite !is_zero_Prim2SF, add_spec.
  destruct (Prim2SF x) as [[ | ] | | | ]; try discriminate;
    destruct (Prim2SF y) as [[ | ] | | | ]; try discriminate; reflexivity.
Qed.

Lemma add_plus_zero (y : float) : is_zero y = true -> 0 + y = 0.
Proof.
  intros H. apply Prim2SF_inj. rewrite add_spec.
  rewrite is_zero_Prim2SF in H. change (Prim2SF 0) with (S754_zero false).
  destruct (Prim2SF y) as [[ | ] | | | ]; try discriminate; reflexivity.
Qed.

Lemma is_zero_finite (x : float) : is_zero x = true -> is_finite x = true.
Proof.
  rewrite is_zero_Prim2SF, is_finite_Prim2SF.
  now destruct (Prim2SF x).
Qed.

(** *** Halving and dividing a normal double, on the specification *)

Lemma div_eucl_exact (a b : Z) : (0 < b)%Z -> Z.div_eucl (a * b) b = (a, 0%Z).
Proof.
  intros Hb.
  assert (H : Z.div_eucl (a * b) b = ((a * b) / b, (a * b) mod b)%Z).
  { unfold Z.div, Z.modulo. now destruct (Z.div_eucl (a * b) b). }
  rewrite H, Z_div_mult_full, Z_mod_mult by lia. reflexivity.
Qed.

Lemma new_location_exact (n : Z) : new_location n 0 = loc_Exact.
Proof. unfold new_location. now destruct (Z.even n). Qed.

Lemma shr_fexp_canonical (m : positive) (e : Z) :
  digits2_pos m = 53%positive -> (-1074 <= e)%Z ->
  shr_fexp prec emax (Z.pos m) e loc_Exact
  = ({| shr_m := Z.pos m; shr_r := false; shr_s := false |}, e).
Proof.
  intros Hd He. unfold shr_fexp. cbn [Zdigits2]. rewrite Hd.
  replace (fexp prec emax (53 + e) - e)%Z with 0%Z
    by (unfold fexp, SpecFloat.emin, emax, prec; lia).
  reflexivity.
Qed.

Lemma shr_fexp_double (m : positive) (e : Z) :
  digits2_pos m = 53%positive -> (-1075 <= e)%Z ->
  shr_fexp prec emax (Z.pos m~0) e loc_Exact
  = ({| shr_m := Z.pos m; shr_r := false; shr_s := false |}, (e + 1)%Z).
Proof.
  intros Hd He. unfold shr_fexp. cbn [Zdigits2 digits2_pos]. rewrite Hd.
  replace (fexp prec emax (Z.pos (Pos.succ 53) + e) - e)%Z with 1%Z
    by (unfold fexp, SpecFloat.emin, emax, prec; lia).
  reflexivity.
Qed.

(** Rounding a mantissa of 53 bits changes nothing. *)
Lemma binary_round_aux_canonical (s : bool) (m : positive) (e : Z) :
  digits2_pos m = 53%positive -> (-1074 <= e <= 971)%Z ->
  binary_round_aux prec emax s (Z.pos m) e loc_Exact = S754_finite s m e.
Proof.
  intros Hd He.
  unfold binary_round_aux. rewrite shr_fexp_canonical by (assumption || lia).
  cbn [shr_m loc_of_shr_record round_nearest_even].
  rewrite shr_fexp_canonical by (assumption || lia). cbn [shr_m].
  replace (e <=? emax - prec)%Z with true; [reflexivity | ].
  symmetry. apply Z.leb_le. unfold emax, prec. lia.
Qed.

(** Rounding twice such a mantissa moves the exponent. *)
Lemma binary_round_aux_double (s : bool) (m : positive) (e : Z) :
  digits2_pos m = 53%positive -> (-1075 <= e <= 970)%Z ->
  binary_round_aux prec emax s (Z.pos m~0) e loc_Exact
  = S754_finite s m (e + 1).
Proof.
  intros Hd He.
  unfold binary_round_aux. rewrite shr_fexp_double by (assumption || lia).
  cbn [shr_m loc_of_shr_record round_nearest_even].
  rewrite shr_fexp_canonical by (assumption || lia). cbn [shr_m].
  replace (e + 1 <=? emax - prec)%Z with true; [reflexivity | ].
  symmetry. apply Z.leb_le. unfold emax, prec. lia.
Qed.

Lemma SFdiv_by_two (m : positive) (e : Z) :
  digits2_pos m = 53%positive -> (-52 <= e <= 971)%Z ->
  SF64div (S754_finite false m e) (S754_finite false 4503599627370496 (-51))
  = S754_finite false m (e - 1).
Proof.
  intros Hd He.
  unfold SF64div, SFdiv, SFdiv_core_binary.
  cbn [Zdigits2]. rewrite Hd.
  replace (fexp prec emax
             (53 + e - (Z.pos (digits2_pos 4503599627370496) + -51)))%Z
    with (e - 2)%Z
    by (unfold fexp, SpecFloat.emin, emax, prec; simpl digits2_pos; lia).
  replace (Z.min (e - 2) (e - -51)) with (e - 2)%Z by lia.
  replace (e - -51 - (e - 2))%Z with 53%Z by lia.
  rewrite Z.shiftl_mul_pow2 by lia.
  replace (Z.pos m * 2 ^ 53)%Z with (Z.pos m~0 * 4503599627370496)%Z by lia.
  rewrite div_eucl_exact by lia. rewrite new_location_exact.
  cbn [xorb]. rewrite binary_round_aux_double by (assumption || lia).
  f_equal. lia.
Qed.

Lemma SFsub_self (s : bool) (m : positive) (e : Z) :
  SF64sub (S754_finite s m e) (S754_finite s m e) = S754_zero false.
Proof.
  unfold SF64sub, SFsub. rewrite Z.min_id.
  unfold shl_align. rewrite Z.sub_diag. cbn [fst].
  rewrite ?Z.sub_diag. reflexivity.
Qed.

Lemma SFsub_half (m : positive) (e : Z) :
  digits2_pos m = 53%positive -> (-1073 <= e <= 972)%Z ->
  SF64sub (S754_finite false m e) (S754_finite false m (e - 1))
  = S754_finite false m (e - 1).
Proof.
  intros Hd He. unfold SF64sub, SFsub.
  replace (Z.min e (e - 1)) with (e - 1)%Z by lia.
  unfold shl_align. rewrite Z.sub_diag.
  replace (e - 1 - e)%Z with (-1)%Z by lia.
  cbn [fst cond_Zopp Pos.iter].
  replace (Z.pos m~0 - Z.pos m)%Z with (Z.pos m) by lia.
  unfold binary_normalize, binary_round. rewrite Hd.
  replace (fexp prec emax (53 + (e - 1))) with (e - 1)%Z
    by (unfold fexp, SpecFloat.emin, emax, prec; lia).
  unfold shl_align. rewrite Z.sub_diag.
  apply binary_round_aux_canonical; [exact Hd | lia].
Qed.

Lemma SFdiv_self (s : bool) (m : positive) (e : Z) :
  SF64div (S754_finite s m e) (S754_finite false m e)
  = S754_finite s 4503599627370496 (-52).
Proof.
  unfold SF64div, SFdiv, SFdiv_core_binary.
  rewrite !Z.sub_diag.
  change (Z.min (fexp prec emax 0) 0) with (-53)%Z.
  change (0 - -53)%Z with 53%Z. cbv iota.
  rewrite Z.shiftl_mul_pow2 by lia.
  rewrite (Z.mul_comm (Z.pos m)), div_eucl_exact by lia.
  rewrite new_location_exact. now destruct s.
Qed.

(** *** A window width: a double from 1 up, not infinite *)

Lemma width_normal (w : float) :
  (1 <=? w) = true -> (w <? infinity) = true ->
  exists m e,
    Prim2SF w = S754_finite false m e
    /\ digits2_pos m = 53%positive /\ (-52 <= e <= 971)%Z.
Proof.
  intros H1 H2.
  rewrite leb_spec in H1. rewrite ltb_spec in H2.
  change (Prim2SF 1) with (S754_finite false 4503599627370496 (-52)) in H1.
  change (Prim2SF infinity) with (S754_infinity false) in H2.
  pose proof (Prim2SF_valid w) as Hv.
  destruct (Prim2SF w) as [s | s | | s m e]; try discriminate.
  - destruct s; discriminate.
  - unfold SFleb, SFcompare in H1.
    destruct s; try discriminate.
    exists m, e. split; [reflexivity | ].
    simpl in Hv. unfold bounded, canonical_mantissa in Hv.
    apply andb_prop in Hv. destruct Hv as [Hc Hb].
    apply Z.eqb_eq in Hc. apply Z.leb_le in Hb.
    unfold fexp, SpecFloat.emin, emax, prec in *.
    assert (-52 <= e)%Z
      by (destruct (Z.compare_spec (-52) e); try lia; try discriminate).
    split; [ | lia].
    assert (Z.pos (digits2_pos m) = 53)%Z by lia. congruence.
Qed.

(** The three pointer positions the specification names, against half
    the width. *)
Lemma width_ratios (w : float) :
  (1 <=? w) = true -> (w <? infinity) = true ->
  (w / 2 - w / 2) / (w / 2) = 0
  /\ (0 - w / 2) / (w / 2) = -1
  /\ (w - w / 2) / (w / 2) = 1.
Proof.
  intros H1 H2.
  destruct (width_normal w H1 H2) as (m & e & Hw & Hd & He).
  assert (Hh : Prim2SF (w / 2) = S754_finite false m (e - 1)).
  { rewrite div_spec, Hw.
    change (Prim2SF 2) with (S754_finite false 4503599627370496 (-51)).
    now apply SFdiv_by_two. }
  repeat split; apply Prim2SF_inj; rewrite div_spec, sub_spec, ?Hh, ?Hw.
  - now rewrite SFsub_self.
  - change (Prim2SF 0) with (S754_zero false).
    cbn [SF64sub SFsub negb]. now rewrite SFdiv_self.
  - rewrite SFsub_half by (assumption || lia). now rewrite SFdiv_self.
Qed.

(** *** Rounding without overflow, on the specification *)

Lemma pow2_gt_1 (k : Z) : (1 < 2 ^ k -> 0 < k)%Z.
Proof.
  intros H. destruct (Z_lt_le_dec 0 k) as [Hk | Hk]; [exact Hk | exfalso].
  destruct (Z.eq_dec k 0) as [-> | Hne].
  - simpl in H. lia.
  - rewrite Z.pow_neg_r in H by lia. lia.
Qed.

Lemma digits2_pos_le (p : positive) :
  forall k : Z, (Z.pos p < 2 ^ k -> Z.pos (digits2_pos p) <= k)%Z.
Proof.
  induction p as [p IH | p IH | ]; intros k Hk;
    assert (Hk0 : (0 < k)%Z) by (apply pow2_gt_1; lia);
    simpl digits2_pos; [ | | lia];
    replace k with (Z.succ (k - 1)) in Hk by lia;
    rewrite Z.pow_succ_r in Hk by lia;
    specialize (IH (k - 1)%Z); lia.
Qed.

Lemma Zdigits2_le (m k : Z) :
  (0 <= m < 2 ^ k -> 0 <= k -> Zdigits2 m <= k)%Z.
Proof.
  intros [H0 Hk] Hk0. destruct m as [ | p | p]; simpl; try lia.
  now apply digits2_pos_le.
Qed.

Lemma Zpos_lt_pow_digits (p : positive) :
  (Z.pos p < 2 ^ Z.pos (digits2_pos p))%Z.
Proof.
  induction p as [p IH | p IH | ]; simpl digits2_pos.
  - rewrite Pos2Z.inj_succ, Z.pow_succ_r by lia. lia.
  - rewrite Pos2Z.inj_succ, Z.pow_succ_r by lia. lia.
  - reflexivity.
Qed.

Lemma pow2_lt_cancel (a j k : Z) :
  (0 <= j <= k -> a * 2 ^ j < 2 ^ k -> a < 2 ^ (k - j))%Z.
Proof.
  intros Hj H. replace k with ((k - j) + j)%Z in H by lia.
  rewrite Z.pow_add_r in H by lia.
  assert (0 < 2 ^ j)%Z by (apply Z.pow_pos_nonneg; lia). nia.
Qed.

Lemma fexp_binary64 (x : Z) : fexp prec emax x = Z.max (x - 53) (-1074).
Proof. reflexivity. Qed.

(** A shift to the right halves the mantissa, rounding down. *)
Lemma shr_1_m (mrs : shr_record) :
  (0 <= shr_m mrs)%Z -> shr_m (shr_1 mrs) = (shr_m mrs / 2)%Z.
Proof.
  destruct mrs as [m r s]. simpl. intros H.
  destruct m as [ | [p | p | ] | p]; simpl shr_m.
  - reflexivity.
  - rewrite Pos2Z.inj_xI. apply Z.div_unique with 1%Z; lia.
  - rewrite Pos2Z.inj_xO. apply Z.div_unique with 0%Z; lia.
  - reflexivity.
  - lia.
Qed.

Lemma iter_pos_shr_1_m (p : positive) :
  forall mrs : shr_record,
    (0 <= shr_m mrs)%Z ->
    shr_m (iter_pos shr_1 p mrs) = (shr_m mrs / 2 ^ Z.pos p)%Z.
Proof.
  induction p as [p IH | p IH | ]; intros mrs H; simpl iter_pos.
  - assert (H1 : (0 <= shr_m (shr_1 mrs))%Z)
      by (rewrite shr_1_m by exact H; apply Z.div_pos; lia).
    assert (H2 : (0 <= shr_m (iter_pos shr_1 p (shr_1 mrs)))%Z)
      by (rewrite IH by exact H1; apply Z.div_pos; lia).
    rewrite IH, IH, shr_1_m by assumption.
    rewrite !Z.div_div by lia. f_equal.
    replace (Z.pos p~1) with (1 + Z.pos p + Z.pos p)%Z by lia.
    rewrite !Z.pow_add_r by lia. change (2 ^ 1)%Z with 2%Z. ring.
  - assert (H2 : (0 <= shr_m (iter_pos shr_1 p mrs))%Z)
      by (rewrite IH by exact H; apply Z.div_pos; lia).
    rewrite IH, IH by assumption.
    rewrite !Z.div_div by lia. f_equal.
    replace (Z.pos p~0) with (Z.pos p + Z.pos p)%Z by lia.
    rewrite !Z.pow_add_r by lia. ring.
  - now rewrite shr_1_m.
Qed.

(** What [shr_fexp] returns: the exponent, and a bound on the mantissa. *)
Lemma shr_fexp_spec (m e : Z) (l : location) :
  (0 <= m)%Z ->
  let '(mrs, e') := shr_fexp prec emax m e l in
  (e' = Z.max e (fexp prec emax (Zdigits2 m + e))
   /\ 0 <= shr_m mrs
   /\ shr_m mrs * 2 ^ (e' - e) <= m)%Z.
Proof.
  intros Hm. unfold shr_fexp, shr.
  assert (Hrec : shr_m (shr_record_of_loc m l) = m)
    by (destruct l as [ | [ | | ]]; reflexivity).
  destruct (fexp prec emax (Zdigits2 m + e) - e)%Z as [ | p | p] eqn:Hn.
  - rewrite Hrec. replace (Z.max e _) with e by lia.
    rewrite Z.sub_diag. simpl. lia.
  - rewrite iter_pos_shr_1_m by (rewrite Hrec; exact Hm). rewrite Hrec.
    replace (Z.max e _) with (e + Z.pos p)%Z by lia.
    replace (e + Z.pos p - e)%Z with (Z.pos p) by lia.
    split; [reflexivity | ]. split.
    + apply Z.div_pos; lia.
    + rewrite Z.mul_comm. apply Z.mul_div_le. lia.
  - rewrite Hrec. replace (Z.max e _) with e by lia.
    rewrite Z.sub_diag. simpl. lia.
Qed.

Lemma round_nearest_even_bounds (m : Z) (l : location) :
  (m <= round_nearest_even m l <= m + 1)%Z.
Proof.
  unfold round_nearest_even.
  destruct l as [ | [ | | ]]; try lia. destruct (Z.even m); lia.
Qed.

(** Rounding [m * 2^e], below 2^1023, does not overflow. *)
Lemma binary_round_aux_finite (s : bool) (m e : Z) (l : location) (k : Z) :
  (0 <= m < 2 ^ k)%Z -> (0 <= k)%Z -> (k + e <= 1023)%Z -> (e <= 971)%Z ->
  is_finite_spec (binary_round_aux prec emax s m e l) = true.
Proof.
  intros [Hm0 Hmk] Hk Hke He. unfold binary_round_aux.
  pose proof (shr_fexp_spec m e l Hm0) as H1.
  destruct (shr_fexp prec emax m e l) as [mrs' e'].
  destruct H1 as (He' & H0 & Hb).
  pose proof (round_nearest_even_bounds (shr_m mrs') (loc_of_shr_record mrs'))
    as Hm2.
  set (m2 := round_nearest_even (shr_m mrs') (loc_of_shr_record mrs')) in *.
  assert (Hm20 : (0 <= m2)%Z) by lia.
  pose proof (shr_fexp_spec m2 e' loc_Exact Hm20) as H2.
  destruct (shr_fexp prec emax m2 e' loc_Exact) as [mrs'' e''].
  destruct H2 as (He'' & H0' & _).
  assert (Hd : (Zdigits2 m <= k)%Z) by (apply Zdigits2_le; lia).
  rewrite fexp_binary64 in He', He''.
  assert (He'1 : (e <= e' <= 971)%Z) by lia.
  assert (Hd2 : (Zdigits2 m2 + e' <= 1024)%Z).
  { destruct (Z_le_gt_dec (e' - e) k) as [Hj | Hj].
    - assert (shr_m mrs' < 2 ^ (k - (e' - e)))%Z
        by (apply pow2_lt_cancel; lia).
      assert (Zdigits2 m2 <= k - (e' - e) + 1)%Z.
      { apply Zdigits2_le; [ | lia]. split; [lia | ].
        rewrite Z.pow_add_r by lia. change (2 ^ 1)%Z with 2%Z. lia. }
      lia.
    - assert (Hlt : (2 ^ k < 2 ^ (e' - e))%Z) by (apply Z.pow_lt_mono_r; lia).
      assert (Hz : shr_m mrs' = 0%Z) by nia.
      assert (Zdigits2 m2 <= 1)%Z by (apply Zdigits2_le; simpl; lia).
      lia. }
  destruct (shr_m mrs'') as [ | p | p]; [reflexivity | | lia].
  replace (e'' <=? emax - prec)%Z with true; [reflexivity | ].
  symmetry. apply Z.leb_le. change (emax - prec)%Z with 971%Z. lia.
Qed.

Lemma pos_iter_xO (m d : positive) :
  Z.pos (Pos.iter xO m d) = (Z.pos m * 2 ^ Z.pos d)%Z.
Proof.
  induction d as [ | d IH] using Pos.peano_ind.
  - simpl. lia.
  - rewrite Pos.iter_succ, Pos2Z.inj_xO, IH, Pos2Z.inj_succ, Z.pow_succ_r
      by lia.
    ring.
Qed.

Lemma shl_align_spec (m : positive) (e e' : Z) :
  let '(m', e'') := shl_align m e e' in
  e'' = Z.min e e' /\ Z.pos m' = (Z.pos m * 2 ^ (e - e''))%Z.
Proof.
  unfold shl_align. destruct (e' - e)%Z as [ | d | d] eqn:Hd.
  - replace (Z.min e e') with e by lia. rewrite Z.sub_diag. simpl. lia.
  - replace (Z.min e e') with e by lia. rewrite Z.sub_diag. simpl. lia.
  - replace (Z.min e e') with e' by lia.
    replace (e - e')%Z with (Z.pos d) by lia.
    split; [reflexivity | apply pos_iter_xO].
Qed.

Lemma binary_round_finite (s : bool) (p : positive) (e k : Z) :
  (Z.pos p < 2 ^ k)%Z -> (k + e <= 1023)%Z -> (e <= 971)%Z ->
  is_finite_spec (binary_round prec emax s p e) = true.
Proof.
  intros Hp Hke He. unfold binary_round.
  pose proof (shl_align_spec p e (fexp prec emax (Z.pos (digits2_pos p) + e)))
    as H.
  destruct (shl_align p e (fexp prec emax (Z.pos (digits2_pos p) + e)))
    as [mz ez].
  destruct H as [Hez Hmz].
  assert (Hk : (0 < k)%Z) by (apply pow2_gt_1; lia).
  rewrite fexp_binary64 in Hez.
  apply binary_round_aux_finite with (k := (k + (e - ez))%Z); try lia.
  split; [lia | ].
  rewrite Hmz, Z.pow_add_r by lia.
  assert (0 < 2 ^ (e - ez))%Z by (apply Z.pow_pos_nonneg; lia). nia.
Qed.

Lemma binary_normalize_finite (m e k : Z) (sz : bool) :
  (Z.abs m < 2 ^ k)%Z -> (k + e <= 1023)%Z -> (e <= 971)%Z ->
  is_finite_spec (binary_normalize prec emax m e sz) = true.
Proof.
  intros Hm Hke He. destruct m as [ | p | p]; simpl binary_normalize.
  - reflexivity.
  - now apply binary_round_finite with (k := k).
  - now apply binary_round_finite with (k := k).
Qed.

(** *** The elapsed time between two timestamps is finite *)

Lemma aligned_bound (m : positive) (e ez : Z) :
  (Z.pos m < 2 ^ 53)%Z -> (ez <= e <= 969)%Z ->
  (Z.pos (fst (shl_align m e ez)) < 2 ^ (1022 - ez))%Z.
Proof.
  intros Hm He. pose proof (shl_align_spec m e ez) as H.
  destruct (shl_align m e ez) as [m' e'']. destruct H as [He'' Hm'].
  simpl fst. rewrite Hm'. replace e'' with ez in * by lia.
  apply Z.lt_le_trans with (2 ^ 53 * 2 ^ (e - ez))%Z.
  - assert (0 < 2 ^ (e - ez))%Z by (apply Z.pow_pos_nonneg; lia). nia.
  - rewrite <- Z.pow_add_r by lia. apply Z.pow_le_mono_r; lia.
Qed.

Lemma SFsub_finite (x y : spec_float) :
  moderate_spec x -> moderate_spec y ->
  is_finite_spec (SF64sub x y) = true.
Proof.
  destruct x as [sx | sx | | sx mx ex]; try contradiction;
    destruct y as [sy | sy | | sy my ey]; try contradiction;
    intros Hx Hy; simpl in Hx, Hy.
  - now destruct sx, sy.
  - reflexivity.
  - reflexivity.
  - destruct Hx as [Hmx Hex]. destruct Hy as [Hmy Hey].
    unfold SF64sub, SFsub. set (ez := Z.min ex ey).
    pose proof (aligned_bound mx ex ez Hmx ltac:(lia)) as Ha.
    pose proof (aligned_bound my ey ez Hmy ltac:(lia)) as Hb.
    set (A := Z.pos (fst (shl_align mx ex ez))) in *.
    set (B := Z.pos (fst (shl_align my ey ez))) in *.
    assert (HA : (0 < A)%Z) by (unfold A; lia).
    assert (HB : (0 < B)%Z) by (unfold B; lia).
    apply binary_normalize_finite with (k := (1023 - ez)%Z); try lia.
    replace (1023 - ez)%Z with (Z.succ (1022 - ez)) by lia.
    rewrite Z.pow_succ_r by lia.
    destruct sx, sy; simpl cond_Zopp; lia.
Qed.

Lemma SFdiv_1000_finite (x : spec_float) :
  is_finite_spec x = true -> valid_binary x = true ->
  is_finite_spec (SF64div x (S754_finite false 8796093022208000 (-43)))
  = true.
Proof.
  destruct x as [sx | sx | | sx mx ex]; try discriminate; intros _ Hv.
  - reflexivity.
  - simpl in Hv. unfold bounded, canonical_mantissa in Hv.
    apply andb_prop in Hv. destruct Hv as [Hc Hb].
    apply Z.eqb_eq in Hc. apply Z.leb_le in Hb.
    rewrite fexp_binary64 in Hc. change (emax - prec)%Z with 971%Z in Hb.
    pose proof (Zpos_lt_pow_digits mx) as Hmx.
    set (d := Z.pos (digits2_pos mx)) in *.
    assert (Hd : (1 <= d <= 53)%Z) by (unfold d; lia).
    unfold SF64div, SFdiv, SFdiv_core_binary.
    change (Zdigits2 (Z.pos mx)) with d.
    change (Zdigits2 8796093022208000) with 53%Z.
    rewrite fexp_binary64.
    set (e' := Z.min (Z.max (d + ex - (53 + -43) - 53) (-1074)) (ex - -43)).
    set (s := (ex - -43 - e')%Z).
    assert (Hs : (0 <= s)%Z) by (unfold s, e'; lia).
    set (m' := match s with
               | 0%Z => Z.pos mx
               | Z.pos _ => Z.shiftl (Z.pos mx) s
               | Z.neg _ => 0%Z
               end).
    assert (Hm' : m' = (Z.pos mx * 2 ^ s)%Z).
    { unfold m'. destruct s as [ | p | p] eqn:Es; [simpl; lia | | lia].
      now rewrite Z.shiftl_mul_pow2. }
    assert (Hq : fst (Z.div_eucl m' 8796093022208000)
                 = (m' / 8796093022208000)%Z) by reflexivity.
    destruct (Z.div_eucl m' 8796093022208000) as [q r]. simpl in Hq.
    assert (Hpow : (0 < 2 ^ s)%Z) by (apply Z.pow_pos_nonneg; lia).
    assert (Hq0 : (0 <= q)%Z) by (rewrite Hq; apply Z.div_pos; nia).
    assert (Hm'lt : (m' < 2 ^ (d + s))%Z).
    { rewrite Hm', Z.pow_add_r by lia. nia. }
    destruct (Z_le_gt_dec 52 (d + s)) as [Hds | Hds].
    + apply binary_round_aux_finite with (k := (d + s - 52)%Z);
        try (unfold s, e'; lia).
      split; [exact Hq0 | ]. rewrite Hq.
      apply Z.div_lt_upper_bound; [lia | ].
      replace (d + s)%Z with (52 + (d + s - 52))%Z in Hm'lt by lia.
      rewrite Z.pow_add_r in Hm'lt by lia.
      assert (0 < 2 ^ (d + s - 52))%Z by (apply Z.pow_pos_nonneg; lia).
      change (2 ^ 52)%Z with 4503599627370496%Z in Hm'lt. nia.
    + apply binary_round_aux_finite with (k := 0%Z);
        try (unfold s, e'; lia).
      assert (Hlt : (2 ^ (d + s) <= 2 ^ 52)%Z)
        by (apply Z.pow_le_mono_r; lia).
      change (2 ^ 52)%Z with 4503599627370496%Z in Hlt.
      rewrite Hq, Z.div_small by lia. simpl. lia.
Qed.

Lemma timestamp_moderate (t : float) :
  timestamp t = true -> moderate_spec (Prim2SF t).
Proof.
  unfold timestamp. rewrite leb_spec, abs_spec.
  pose proof (Prim2SF_valid t) as Hv.
  destruct (Prim2SF t) as [s | s | | s m e]; try discriminate.
  - intros _. exact I.
  - intros H. simpl SFabs in H.
    simpl in Hv. unfold bounded, canonical_mantissa in Hv.
    apply andb_prop in Hv. destruct Hv as [Hc Hb].
    apply Z.eqb_eq in Hc. rewrite fexp_binary64 in Hc.
    pose proof (Zpos_lt_pow_digits m) as Hm.
    assert (Hd : (Z.pos (digits2_pos m) <= 53)%Z) by lia.
    split.
    + apply Z.lt_le_trans with (1 := Hm). apply Z.pow_le_mono_r; lia.
    + revert H.
      replace (Prim2SF 1e300)
        with (S754_finite false 6724873095247260 944) by reflexivity.
      unfold SFleb, SFcompare.
      destruct (Z.compare_spec e 944); try lia; discriminate.
Qed.

Lemma elapsed_of_timestamps (a b : float) :
  timestamp a = true -> timestamp b = true ->
  is_finite ((a - b) / 1000) = true.
Proof.
  intros Ha Hb. rewrite is_finite_Prim2SF, div_spec.
  replace (Prim2SF 1000)
    with (S754_finite false 8796093022208000 (-43)) by reflexivity.
  apply SFdiv_1000_finite.
  - rewrite sub_spec. apply SFsub_finite; now apply timestamp_moderate.
  - apply Prim2SF_valid.
Qed.

Lemma elapsed_finite_of_timestamps (times : list float) (last : float) :
  forallb timestamp (last :: times) = true ->
  elapsed_finite last times = true.
Proof.
  revert last. induction times as [ | t times IH]; intros last H.
  - reflexivity.
  - simpl in H. apply andb_prop in H. destruct H as [Hl H].
    simpl elapsed_finite. rewrite (IH t H).
    apply andb_prop in H. destruct H as [Ht _].
    now rewrite (elapsed_of_timestamps t last Ht Hl).
Qed.
End Doubles.

Section Program_on_doubles.
Local Open Scope float_scope.
Import Binary64 Physics.

(** [Math.sin] and [Math.cos] of the engine the program runs on. *)
Variables sin cos : float -> float.

Let N64 : Number float := binary64 sin cos.
Local Existing Instance N64.

(** C1.  Physics variant, [isSwinging] true: [update(totalTime)] is one
    step of the specification's integrator, in its order.  With
    [deltaTimeSeconds = (totalTime - lastUpdateTime) / 1000] and
    [acceleration = -(9.81/8) * sin(angle)]: [lastUpdateTime] becomes
    [totalTime], the velocity grows by [acceleration * deltaTimeSeconds],
    the angle grows by the new velocity times [deltaTimeSeconds], and
    the velocity is then multiplied by 0.99995, once, whatever
    [deltaTimeSeconds] is.  The pendulum keeps swinging. *)
Theorem update_is_one_integration_step
    (this : Pendulum float) (totalTime : float) :
  isSwinging this = true ->
  let next := update this totalTime in
  let deltaTimeSeconds := (totalTime - lastUpdateTime this) / 1000 in
  let acceleration := - (9.81 / 8) * sin (angle this) in
  let velocity' := velocity this + acceleration * deltaTimeSeconds in
  (angle next, velocity next, lastUpdateTime next)
  = Spec.integration_step (angle this) (velocity this) (lastUpdateTime this)
      totalTime
  /\ lastUpdateTime next = totalTime
  /\ angle next = angle this + velocity' * deltaTimeSeconds
  /\ velocity next = velocity' * 0.99995
  /\ isSwinging next = true.
Proof.
  intros H. unfold update. rewrite H. repeat split. exact H.
Qed.

(** C3.  [setAngleFromMouse(x, y)], swinging or not: the angle becomes
    [((x - innerWidth/2) / (innerWidth/2)) * Math.PI / 4], unclamped, and
    is written to the rotation of the string and of the ball; [y] plays
    no part and the rest of the motion state is kept.  For a window at
    least one pixel wide, the pointer at [innerWidth/2] gives angle 0,
    at 0 gives [-Math.PI/4] and at [innerWidth] gives [+Math.PI/4]. *)
Theorem setAngleFromMouse_linear_map
    (window : Window float) (this : Pendulum float) (x y : float) :
  let w := innerWidth window in
  let next := setAngleFromMouse window this x y in
  angle next = (x - w / 2) / (w / 2) * float_PI / 4
  /\ angle next = Spec.pointer_angle w x
  /\ THREE.z (THREE.rotation (string next)) = angle next
  /\ THREE.z (THREE.rotation (ball next)) = angle next
  /\ (isSwinging next, velocity next, lastUpdateTime next)
     = (isSwinging this, velocity this, lastUpdateTime this)
  /\ (forall y' : float, setAngleFromMouse window this x y' = next)
  /\ ((1 <=? w) = true -> (w <? infinity) = true ->
      angle (setAngleFromMouse window this (w / 2) y) = 0
      /\ angle (setAngleFromMouse window this 0 y) = - (float_PI / 4)
      /\ angle (setAngleFromMouse window this w y) = float_PI / 4).
Proof.
  cbv zeta. do 6 (split; [reflexivity | ]).
  intros H1 H2.
  destruct (width_ratios (innerWidth window) H1 H2) as (Hmid & Hleft & Hright).
  unfold setAngleFromMouse. simpl.
  change (float_of_literal 2) with 2. change (float_of_literal 4) with 4.
  rewrite Hmid, Hleft, Hright. repeat split.
Qed.

(** *** The rest state *)

Lemma update_at_rest (this : Pendulum float) (totalTime : float) :
  (forall x, is_zero x = true -> is_zero (sin x) = true) ->
  isSwinging this = true ->
  velocity this = 0 ->
  is_zero (angle this) = true ->
  is_finite ((totalTime - lastUpdateTime this) / 1000) = true ->
  let next := update this totalTime in
  isSwinging next = true
  /\ velocity next = 0
  /\ is_zero (angle next) = true
  /\ (angle this = 0 -> angle next = 0)
  /\ lastUpdateTime next = totalTime.
Proof.
  intros Hsin Hs Hv Ha Hdt. unfold update. rewrite Hs. simpl. rewrite Hv.
  change (float_of_literal 1000) with 1000.
  change (float_of_literal 0.99995) with 0.99995.
  change (- float_of_literal 9.81 / float_of_literal 8) with (-1.2262500000000001).
  set (dt := (totalTime - lastUpdateTime this) / 1000) in *.
  assert (Hacc : is_zero (-1.2262500000000001 * sin (angle this) * dt) = true).
  { apply mul_zero_l; [ | exact Hdt].
    apply mul_zero_r; [reflexivity | now apply Hsin]. }
  rewrite (add_plus_zero _ Hacc).
  assert (Hstep : is_zero (0 * dt) = true)
    by (apply mul_zero_l; [reflexivity | exact Hdt]).
  split; [exact Hs | ].
  split; [reflexivity | ].
  split; [now apply add_zero | ].
  split; [ | reflexivity].
  intros ->. now apply add_plus_zero.
Qed.

Lemma elapsed_finite_firstn (n : nat) (times : list float) (last : float) :
  elapsed_finite last times = true ->
  elapsed_finite last (firstn n times) = true.
Proof.
  revert times last. induction n as [ | n IH]; intros [ | t times] last H;
    try reflexivity.
  simpl in *. apply andb_prop in H. destruct H as [H1 H2].
  now rewrite H1, (IH _ _ H2).
Qed.

Lemma frames_at_rest (times : list float) (this : Pendulum float) :
  (forall x, is_zero x = true -> is_zero (sin x) = true) ->
  isSwinging this = true ->
  velocity this = 0 ->
  is_zero (angle this) = true ->
  elapsed_finite (lastUpdateTime this) times = true ->
  let after := Spec.frames this times in
  velocity after = 0
  /\ is_zero (angle after) = true
  /\ (angle this = 0 -> angle after = 0).
Proof.
  intros Hsin. revert this.
  induction times as [ | t times IH]; intros this Hs Hv Ha Hfin.
  - simpl. auto.
  - simpl in Hfin. apply andb_prop in Hfin. destruct Hfin as [Hdt Hfin].
    destruct (update_at_rest this t Hsin Hs Hv Ha Hdt)
      as (Hs' & Hv' & Ha' & H0 & Ht).
    cbv zeta. simpl. fold (Spec.frames (update this t) times).
    rewrite <- Ht in Hfin.
    destruct (IH (update this t) Hs' Hv' Ha' Hfin) as (IHv & IHa & IH0).
    auto.
Qed.

(** C5.  Physics variant: a pendulum at angle 0 that starts swinging
    stays at rest.  After [startSwinging] and any number of [update]
    calls with nothing in between, the velocity is 0 and the angle is 0
    ([+0] when the angle was [+0]; a zero of either sign when it was
    [-0]).  [Math.sin] is taken to map each zero to itself, as
    ECMAScript requires, and the times passed to the calls to be
    timestamps: finite, of magnitude at most 1e300 ms. *)
Theorem rest_at_angle_zero_is_fixed
    (this : Pendulum float) (currentTime : float) (times : list float)
    (n : nat) :
  sin 0 = 0 ->
  sin (-0) = (-0) ->
  is_zero (angle this) = true ->
  forallb timestamp (currentTime :: times) = true ->
  let after := Spec.frames (startSwinging this currentTime) (firstn n times) in
  is_zero (velocity after) = true
  /\ is_zero (angle after) = true
  /\ velocity after = 0
  /\ (angle this = 0 -> angle after = 0).
Proof.
  intros Hp Hn Ha Ht.
  assert (Hfin := elapsed_finite_of_timestamps times currentTime Ht).
  assert (Hsin : forall x, is_zero x = true -> is_zero (sin x) = true).
  { intros x Hx. destruct (is_zero_cases _ Hx) as [-> | ->].
    - now rewrite Hp.
    - now rewrite Hn. }
  assert (Hv0 : velocity (startSwinging this currentTime) = 0) by reflexivity.
  destruct (frames_at_rest (firstn n times) (startSwinging this currentTime)
              Hsin eq_refl Hv0 Ha (elapsed_finite_firstn n _ _ Hfin))
    as (Hv & Hz & H0).
  cbv zeta. rewrite Hv. auto.
Qed.
End Program_on_doubles.

(** ** The swing stays bounded

    How far rounding to nearest can carry a product or a sum: no
    further than the next double on the way. *)
Section Rounding_up.
Local Open Scope Z_scope.
Import Binary64.

Lemma shifted_shr_1 (M k : Z) (mrs : shr_record) :
  0 <= k -> shifted M k mrs -> shifted M (k + 1) (shr_1 mrs).
Proof.
  intros Hk (H0 & Hq & _). unfold shifted.
  rewrite Z.pow_add_r by lia. change (2 ^ 1) with 2.
  assert (Hp : 0 < 2 ^ k) by (apply Z.pow_pos_nonneg; lia).
  destruct mrs as [m r s]. cbn [shr_m shr_r] in *. set (x := 2 ^ k) in *.
  destruct m as [ | [p | p | ] | p]; cbn [shr_1 shr_m shr_r]; lia.
Qed.

Lemma shifted_iter (M : Z) (p : positive) :
  forall (k : Z) (mrs : shr_record),
    0 <= k -> shifted M k mrs ->
    shifted M (k + Z.pos p) (iter_pos shr_1 p mrs).
Proof.
  induction p as [p IH | p IH | ]; intros k mrs Hk H; simpl iter_pos.
  - replace (k + Z.pos p~1) with ((k + 1 + Z.pos p) + Z.pos p) by lia.
    apply IH; [lia | ]. apply IH; [lia | ]. now apply shifted_shr_1.
  - replace (k + Z.pos p~0) with ((k + Z.pos p) + Z.pos p) by lia.
    apply IH; [lia | ]. now apply IH.
  - now apply shifted_shr_1.
Qed.

(** The first half of [binary_round_aux] on an exact [m * 2^e]: the
    exponent it settles on, and a mantissa at most half a unit above. *)
Lemma shr_fexp_round (m : positive) (e : Z) :
  let '(mrs, e1) := shr_fexp prec emax (Z.pos m) e loc_Exact in
  let m1 := round_nearest_even (shr_m mrs) (loc_of_shr_record mrs) in
  e1 = Z.max e (fexp prec emax (Z.pos (digits2_pos m) + e))
  /\ 0 <= m1
  /\ (e1 = e -> m1 = Z.pos m)
  /\ 2 * (m1 * 2 ^ (e1 - e)) <= 2 * Z.pos m + 2 ^ (e1 - e).
Proof.
  unfold shr_fexp, shr. change (Zdigits2 (Z.pos m)) with (Z.pos (digits2_pos m)).
  destruct (fexp prec emax (Z.pos (digits2_pos m) + e) - e) as [ | p | p] eqn:Hn;
    cbv zeta.
  - replace (Z.max e _) with e by lia. rewrite Z.sub_diag, Z.pow_0_r.
    cbn [shr_record_of_loc shr_m loc_of_shr_record shr_r shr_s
         round_nearest_even]. lia.
  - assert (H : shifted (Z.pos m) (0 + Z.pos p)
                  (iter_pos shr_1 p (shr_record_of_loc (Z.pos m) loc_Exact))).
    { apply shifted_iter; [lia | ]. unfold shifted.
      cbn [shr_record_of_loc shr_m shr_r]. rewrite Z.pow_0_r.
      lia. }
    rewrite Z.add_0_l in H. destruct H as (H0 & Hq & Hr).
    replace (Z.max e _) with (e + Z.pos p) by lia.
    replace (e + Z.pos p - e) with (Z.pos p) by lia.
    assert (Hp : 0 < 2 ^ Z.pos p) by (apply Z.pow_pos_nonneg; lia).
    destruct (iter_pos shr_1 p _) as [q r s]. cbn [shr_m shr_r] in *.
    set (x := 2 ^ Z.pos p) in *.
    split; [reflexivity | ].
    destruct r, s; cbn [loc_of_shr_record round_nearest_even];
      try specialize (Hr eq_refl); try destruct (Z.even q);
      repeat split; lia.
  - replace (Z.max e _) with e by lia. rewrite Z.sub_diag, Z.pow_0_r.
    cbn [shr_record_of_loc shr_m loc_of_shr_record shr_r shr_s
         round_nearest_even]. lia.
Qed.

(** What [binary_round_aux] makes of an exact [m * 2^e], when finite. *)
Lemma binary_round_aux_upper (s s' : bool) (m m' : positive) (e e' : Z) :
  binary_round_aux prec emax s (Z.pos m) e loc_Exact = S754_finite s' m' e' ->
  let e1 := Z.max e (fexp prec emax (Z.pos (digits2_pos m) + e)) in
  e1 <= e'
  /\ (e1 = e -> Z.pos m' * 2 ^ (e' - e) <= Z.pos m)
  /\ 2 * (Z.pos m' * 2 ^ (e' - e)) <= 2 * Z.pos m + 2 ^ (e1 - e).
Proof.
  unfold binary_round_aux.
  pose proof (shr_fexp_round m e) as H1.
  destruct (shr_fexp prec emax (Z.pos m) e loc_Exact) as [mrs e1].
  cbv zeta in H1. destruct H1 as (He1 & Hm0 & Hex & Hup).
  set (m1 := round_nearest_even (shr_m mrs) (loc_of_shr_record mrs)) in *.
  pose proof (shr_fexp_spec m1 e1 loc_Exact Hm0) as H2.
  destruct (shr_fexp prec emax m1 e1 loc_Exact) as [mrs2 e2].
  destruct H2 as (He2 & H20 & H2b).
  destruct (shr_m mrs2) as [ | p | p] eqn:Hp; try discriminate.
  destruct (e2 <=? emax - prec); try discriminate.
  intros E. injection E as _ <- <-. cbv zeta. rewrite <- He1.
  assert (Hle : e1 <= e2) by lia.
  assert (Hee : e <= e1) by lia.
  replace (e2 - e) with ((e2 - e1) + (e1 - e)) by lia.
  rewrite Z.pow_add_r by lia.
  assert (Hp1 : 0 < 2 ^ (e1 - e)) by (apply Z.pow_pos_nonneg; lia).
  set (a := 2 ^ (e1 - e)) in *. set (b := 2 ^ (e2 - e1)) in *.
  assert (Hba : Z.pos p * b * a <= m1 * a)
    by (apply Z.mul_le_mono_nonneg_r; lia).
  split; [exact Hle | ]. split.
  - intros Heq. specialize (Hex Heq).
    assert (Ha : a = 1) by (unfold a; rewrite Heq, Z.sub_diag; reflexivity).
    rewrite Ha in *. lia.
  - lia.
Qed.

Lemma half_unit_le (r y m a c : Z) :
  0 < a -> 0 < c ->
  2 * (r * a) <= 2 * m + a -> m * c <= y * (a * c) -> r * (a * c) <= y * (a * c).
Proof.
  intros Ha Hc H1 H2.
  assert (Hm : m <= y * a) by nia.
  assert (Hr : r <= y) by nia.
  apply Z.mul_le_mono_nonneg_r; nia.
Qed.

Lemma half_unit_absorb (r m a c S : Z) :
  0 < a -> 0 < c -> 0 <= S -> 2 * S < a * c ->
  2 * (r * a) <= 2 * m + a -> m * c <= 2 ^ 52 * (a * c) + S ->
  r * (a * c) <= 2 ^ 52 * (a * c).
Proof.
  intros Ha Hc HS0 HS H1 H2.
  assert (H3 : 2 * (r * a) * c <= (2 * m + a) * c)
    by (apply Z.mul_le_mono_nonneg_r; lia).
  assert (Hr : r < 2 ^ 52 + 1) by nia.
  apply Z.mul_le_mono_nonneg_r; nia.
Qed.

Lemma pow_split (x y z : Z) :
  z <= y -> y <= x -> 2 ^ (x - z) = 2 ^ (x - y) * 2 ^ (y - z).
Proof.
  intros Hz Hy. rewrite <- Z.pow_add_r by lia. f_equal. lia.
Qed.

Lemma pow_digits_le (p : positive) :
  2 ^ (Z.pos (digits2_pos p) - 1) <= Z.pos p.
Proof.
  induction p as [p IH | p IH | ]; simpl digits2_pos.
  - rewrite Pos2Z.inj_succ. replace (Z.succ (Z.pos (digits2_pos p)) - 1)
      with (Z.succ (Z.pos (digits2_pos p) - 1)) by lia.
    rewrite Z.pow_succ_r by lia. lia.
  - rewrite Pos2Z.inj_succ. replace (Z.succ (Z.pos (digits2_pos p)) - 1)
      with (Z.succ (Z.pos (digits2_pos p) - 1)) by lia.
    rewrite Z.pow_succ_r by lia. lia.
  - reflexivity.
Qed.

(** Of two magnitudes, the smaller has no more digits. *)
Lemma digits_le (m my : positive) (e ey b : Z) :
  b <= e -> b <= ey ->
  Z.pos m * 2 ^ (e - b) <= Z.pos my * 2 ^ (ey - b) ->
  Z.pos (digits2_pos m) + e <= Z.pos (digits2_pos my) + ey.
Proof.
  intros He Hey H.
  pose proof (pow_digits_le m) as Hm. pose proof (Zpos_lt_pow_digits my) as Hy.
  set (d := Z.pos (digits2_pos m)) in *.
  set (dy := Z.pos (digits2_pos my)) in *.
  assert (Hd : 1 <= d) by (unfold d; lia).
  assert (Hdy : 1 <= dy) by (unfold dy; lia).
  destruct (Z_le_gt_dec (d + e) (dy + ey)) as [Hle | Hgt]; [exact Hle | exfalso].
  assert (H1 : 2 ^ (d - 1) * 2 ^ (e - b) <= Z.pos m * 2 ^ (e - b))
    by (apply Z.mul_le_mono_nonneg_r; [apply Z.pow_nonneg | ]; lia).
  assert (H2 : Z.pos my * 2 ^ (ey - b) < 2 ^ dy * 2 ^ (ey - b))
    by (apply Z.mul_lt_mono_pos_r; [apply Z.pow_pos_nonneg | ]; lia).
  rewrite <- Z.pow_add_r in H1, H2 by lia.
  assert (H3 : 2 ^ (dy + (ey - b)) <= 2 ^ (d - 1 + (e - b)))
    by (apply Z.pow_le_mono_r; lia).
  lia.
Qed.

(** Rounding to nearest does not pass a double that is on the way. *)
Lemma binary_round_aux_le (s s' : bool) (m m' my : positive) (e e' ey b : Z) :
  binary_round_aux prec emax s (Z.pos m) e loc_Exact = S754_finite s' m' e' ->
  b <= e -> b <= ey ->
  fexp prec emax (Z.pos (digits2_pos my) + ey) = ey ->
  Z.pos m * 2 ^ (e - b) <= Z.pos my * 2 ^ (ey - b) ->
  Z.pos m' * 2 ^ (e' - b) <= Z.pos my * 2 ^ (ey - b).
Proof.
  intros Hr He Hey Hc Hle.
  pose proof (binary_round_aux_upper _ _ _ _ _ _ Hr) as H. cbv zeta in H.
  destruct H as (He1 & Hex & Hup).
  pose proof (digits_le _ _ _ _ _ He Hey Hle) as Hd.
  rewrite fexp_binary64 in *.
  set (d := Z.pos (digits2_pos m)) in *.
  set (dy := Z.pos (digits2_pos my)) in *.
  set (e1 := Z.max e (Z.max (d + e - 53) (-1074))) in *.
  assert (Hp : 0 < 2 ^ (e - b)) by (apply Z.pow_pos_nonneg; lia).
  destruct (Z.eq_dec e1 e) as [Heq | Hne].
  - specialize (Hex Heq).
    replace (e' - b) with ((e' - e) + (e - b)) by lia.
    rewrite Z.pow_add_r by lia.
    assert (Z.pos m' * 2 ^ (e' - e) * 2 ^ (e - b) <= Z.pos m * 2 ^ (e - b))
      by (apply Z.mul_le_mono_nonneg_r; lia).
    lia.
  - assert (Hee : e < e1 /\ e1 <= ey) by lia. destruct Hee as [Hee He1y].
    rewrite (pow_split e' e1 b), (pow_split ey e1 b) by lia.
    rewrite (pow_split e1 e b) by lia.
    rewrite (pow_split e' e1 e) in Hup by lia.
    rewrite !Z.mul_assoc.
    rewrite <- (Z.mul_assoc (Z.pos m' * 2 ^ (e' - e1))).
    rewrite <- (Z.mul_assoc (Z.pos my * 2 ^ (ey - e1))).
    apply half_unit_le with (m := Z.pos m);
      try (apply Z.pow_pos_nonneg; lia).
    + rewrite <- Z.mul_assoc. exact Hup.
    + rewrite <- (pow_split e1 e b), <- Z.mul_assoc, <- (pow_split ey e1 b) by lia.
      exact Hle.
Qed.

(** Near a power of two, what is added below half a unit is lost. *)
Lemma binary_round_aux_absorb (s s' : bool) (m m' : positive)
    (e e' ey b S : Z) :
  binary_round_aux prec emax s (Z.pos m) e loc_Exact = S754_finite s' m' e' ->
  b <= e -> b <= ey -> -1074 <= ey ->
  0 <= S -> 2 * S < 2 ^ (ey - b) ->
  Z.pos m * 2 ^ (e - b) <= 2 ^ 52 * 2 ^ (ey - b) + S ->
  Z.pos m' * 2 ^ (e' - b) <= 2 ^ 52 * 2 ^ (ey - b).
Proof.
  intros Hr He Hey Hey0 HS0 HS Hle.
  destruct (Z_le_gt_dec (Z.pos m * 2 ^ (e - b)) (2 ^ 52 * 2 ^ (ey - b)))
    as [Hsmall | Hbig].
  - change (2 ^ 52) with (Z.pos 4503599627370496).
    apply (binary_round_aux_le s s' m m' 4503599627370496 e e' ey b Hr He Hey);
      [ | exact Hsmall].
    rewrite fexp_binary64. change (Z.pos (digits2_pos 4503599627370496)) with 53.
    lia.
  - pose proof (binary_round_aux_upper _ _ _ _ _ _ Hr) as H. cbv zeta in H.
    destruct H as (He1 & Hex & Hup).
    pose proof (pow_digits_le m) as Hm1. pose proof (Zpos_lt_pow_digits m) as Hm2.
    rewrite fexp_binary64 in *.
    set (d := Z.pos (digits2_pos m)) in *.
    assert (Hd1 : 1 <= d) by (unfold d; lia).
    assert (Hu : 0 < 2 ^ (ey - b)) by (apply Z.pow_pos_nonneg; lia).
    assert (Hc : 0 < 2 ^ (e - b)) by (apply Z.pow_pos_nonneg; lia).
    (* the digits of [m * 2^e] are those of the power of two *)
    assert (Hlow : 53 + ey <= d + e).
    { destruct (Z_le_gt_dec (53 + ey) (d + e)) as [H | H]; [exact H | exfalso].
      assert (H1 : Z.pos m * 2 ^ (e - b) < 2 ^ d * 2 ^ (e - b))
        by (apply Z.mul_lt_mono_pos_r; lia).
      rewrite <- Z.pow_add_r in H1 by lia.
      assert (H2 : 2 ^ (d + (e - b)) <= 2 ^ (52 + (ey - b)))
        by (apply Z.pow_le_mono_r; lia).
      rewrite (Z.pow_add_r 2 52) in H2 by lia.
      lia. }
    assert (Hhigh : d + e <= 53 + ey).
    { destruct (Z_le_gt_dec (d + e) (53 + ey)) as [H | H]; [exact H | exfalso].
      assert (H1 : 2 ^ (d - 1) * 2 ^ (e - b) <= Z.pos m * 2 ^ (e - b))
        by (apply Z.mul_le_mono_nonneg_r; [apply Z.pow_nonneg | ]; lia).
      rewrite <- Z.pow_add_r in H1 by lia.
      assert (H2 : 2 ^ (53 + (ey - b)) <= 2 ^ (d - 1 + (e - b)))
        by (apply Z.pow_le_mono_r; lia).
      rewrite (Z.pow_add_r 2 53) in H2 by lia.
      change (2 ^ 53) with (2 * 2 ^ 52) in H2.
      lia. }
    set (e1 := Z.max e (Z.max (d + e - 53) (-1074))) in *.
    destruct (Z.eq_dec e1 e) as [Heq | Hne].
    + (* no bit is shifted out: [m * 2^e] is on the grid already *)
      exfalso. assert (Hge : ey <= e) by lia.
      rewrite (pow_split e ey b) in Hbig, Hle by lia.
      rewrite Z.mul_assoc in Hbig, Hle.
      set (u := 2 ^ (ey - b)) in *. set (q := Z.pos m * 2 ^ (e - ey)) in *.
      assert (Hq : 2 ^ 52 < q) by nia.
      assert (Hq' : (2 ^ 52 + 1) * u <= q * u)
        by (apply Z.mul_le_mono_nonneg_r; lia).
      lia.
    + assert (He1y : e1 = ey) by lia.
      rewrite He1y in Hup.
      rewrite (pow_split e' ey b) by lia.
      rewrite (pow_split ey e b) in * by lia.
      rewrite (pow_split e' ey e) in Hup by lia.
      rewrite !Z.mul_assoc.
      rewrite <- (Z.mul_assoc (Z.pos m' * 2 ^ (e' - ey))).
      rewrite <- (Z.mul_assoc (2 ^ 52)).
      apply half_unit_absorb with (m := Z.pos m) (S := S);
        try (apply Z.pow_pos_nonneg; lia); try assumption.
      * rewrite <- Z.mul_assoc. exact Hup.
Qed.
End Rounding_up.

Section Magnitudes.
Local Open Scope Z_scope.
Import Binary64.

Lemma canonical_bounds (m : positive) (e : Z) :
  fexp prec emax (Z.pos (digits2_pos m) + e) = e ->
  -1074 <= e /\ Z.pos m < 2 ^ 53 /\ (-1074 < e -> 2 ^ 52 <= Z.pos m).
Proof.
  rewrite fexp_binary64. intros H.
  pose proof (pow_digits_le m) as H1. pose proof (Zpos_lt_pow_digits m) as H2.
  set (d := Z.pos (digits2_pos m)) in *.
  assert (Hd : 1 <= d) by (unfold d; lia).
  split; [lia | ]. split.
  - apply Z.lt_le_trans with (1 := H2). apply Z.pow_le_mono_r; lia.
  - intros He. replace d with 53 in H1 by lia. exact H1.
Qed.

Lemma valid_finite (x : float) (s : bool) (m : positive) (e : Z) :
  Prim2SF x = S754_finite s m e ->
  fexp prec emax (Z.pos (digits2_pos m) + e) = e /\ e <= 971.
Proof.
  intros H. pose proof (Prim2SF_valid x) as V. rewrite H in V.
  unfold SpecFloat.valid_binary, bounded, canonical_mantissa in V.
  apply andb_prop in V. destruct V as [V1 V2].
  apply Z.eqb_eq in V1. apply Z.leb_le in V2.
  change (emax - prec) with 971 in V2. auto.
Qed.

Lemma magnitude_nonneg (x : spec_float) : 0 <= magnitude x.
Proof.
  destruct x as [ | | | s m e]; cbn [magnitude]; try reflexivity.
  apply Z.mul_nonneg_nonneg; [lia | apply Z.pow_nonneg; lia].
Qed.

(** Comparing two positive doubles compares their magnitudes. *)
Lemma SFcompare_magnitude (m mb : positive) (e eb : Z) :
  fexp prec emax (Z.pos (digits2_pos m) + e) = e ->
  fexp prec emax (Z.pos (digits2_pos mb) + eb) = eb ->
  SFleb (S754_finite false m e) (S754_finite false mb eb) = true
  <-> Z.pos m * 2 ^ (e + 1074) <= Z.pos mb * 2 ^ (eb + 1074).
Proof.
  intros Hc Hcb.
  destruct (canonical_bounds _ _ Hc) as (He & Hm & Hn).
  destruct (canonical_bounds _ _ Hcb) as (Heb & Hmb & Hnb).
  unfold SFleb, SFcompare.
  destruct (Z.compare_spec e eb) as [Heq | Hlt | Hgt].
  - subst eb. rewrite Pos.compare_cont_spec. simpl Pos.switch_Eq.
    assert (Hp : 0 < 2 ^ (e + 1074)) by (apply Z.pow_pos_nonneg; lia).
    destruct (Pos.compare_spec m mb) as [H | H | H].
    + subst mb. split; [lia | reflexivity].
    + split; [intros _ | reflexivity].
      apply Z.mul_le_mono_nonneg_r; lia.
    + split; [discriminate | intros H'; exfalso].
      assert (Z.pos mb * 2 ^ (e + 1074) < Z.pos m * 2 ^ (e + 1074))
        by (apply Z.mul_lt_mono_pos_r; lia).
      lia.
  - split; [intros _ | reflexivity].
    replace (eb + 1074) with ((eb - e) + (e + 1074)) by lia.
    rewrite (Z.pow_add_r 2 (eb - e)) by lia.
    assert (Hp : 0 < 2 ^ (e + 1074)) by (apply Z.pow_pos_nonneg; lia).
    assert (H2 : 2 ^ 1 <= 2 ^ (eb - e)) by (apply Z.pow_le_mono_r; lia).
    change (2 ^ 1) with 2 in H2. specialize (Hnb ltac:(lia)).
    rewrite Z.mul_assoc. apply Z.mul_le_mono_nonneg_r; [lia | ].
    change (2 ^ 53) with (2 * 2 ^ 52) in Hm. nia.
  - split; [discriminate | intros H'; exfalso].
    replace (e + 1074) with ((e - eb) + (eb + 1074)) in H' by lia.
    rewrite (Z.pow_add_r 2 (e - eb)) in H' by lia.
    assert (Hp : 0 < 2 ^ (eb + 1074)) by (apply Z.pow_pos_nonneg; lia).
    assert (H2 : 2 ^ 1 <= 2 ^ (e - eb)) by (apply Z.pow_le_mono_r; lia).
    change (2 ^ 1) with 2 in H2. specialize (Hn ltac:(lia)).
    rewrite Z.mul_assoc in H'.
    assert (H3 : Z.pos m * 2 ^ (e - eb) <= Z.pos mb)
      by (apply Z.mul_le_mono_pos_r with (p := 2 ^ (eb + 1074)); lia).
    change (2 ^ 53) with (2 * 2 ^ 52) in Hmb. nia.
Qed.

Lemma leb_within (b x : float) :
  bound b -> (abs x <=? b)%float = true <-> within b x.
Proof.
  intros (mb & eb & Hb & _). unfold within.
  destruct (valid_finite _ _ _ _ Hb) as [Hcb _].
  rewrite leb_spec, abs_spec, is_finite_Prim2SF, Hb.
  destruct (Prim2SF x) as [s | s | | s m e] eqn:Hx;
    cbn [SFabs is_finite_spec magnitude].
  - split; [intros _; split; [reflexivity | ] | reflexivity].
    apply Z.mul_nonneg_nonneg; [lia | apply Z.pow_nonneg; lia].
  - split; [discriminate | intros [H _]; discriminate].
  - split; [discriminate | intros [H _]; discriminate].
  - destruct (valid_finite _ _ _ _ Hx) as [Hc _].
    rewrite (SFcompare_magnitude _ _ _ _ Hc Hcb).
    split; [auto | intros [_ H]; exact H].
Qed.


(** *** Rounding stays within a bound *)

(** [m * 2^e], at most a double [my * 2^ey] plus a margin, is rounded to
    at most that double: when the margin is 0, or when the double is a
    power of two and the margin less than half its unit. *)
Lemma binary_round_aux_barrier (s : bool) (m my : positive) (e ey b S : Z) :
  b <= e -> b <= ey -> ey <= 900 ->
  fexp prec emax (Z.pos (digits2_pos my) + ey) = ey ->
  S = 0 \/ (Z.pos my = 2 ^ 52 /\ 0 <= S /\ 2 * S < 2 ^ (ey - b)) ->
  Z.pos m * 2 ^ (e - b) <= Z.pos my * 2 ^ (ey - b) + S ->
  let r := binary_round_aux prec emax s (Z.pos m) e loc_Exact in
  is_finite_spec r = true
  /\ forall s' m' e', r = S754_finite s' m' e' ->
       -1074 <= e' /\ Z.pos m' * 2 ^ (e' - b) <= Z.pos my * 2 ^ (ey - b).
Proof.
  intros He Hey Hey9 Hc HS Hle r.
  destruct (canonical_bounds _ _ Hc) as (Hey0 & Hmy & _).
  assert (Hu : 0 < 2 ^ (ey - b)) by (apply Z.pow_pos_nonneg; lia).
  assert (Hfin : is_finite_spec r = true).
  { pose proof (Zpos_lt_pow_digits m) as Hm.
    assert (Hd : Z.pos (digits2_pos m) + e <= 54 + ey).
    { change 54 with (Z.pos (digits2_pos 9007199254740992)).
      apply digits_le with (b := b); try lia.
      change (Z.pos 9007199254740992) with (2 ^ 53).
      assert (Z.pos my * 2 ^ (ey - b) <= 2 ^ 53 * 2 ^ (ey - b))
        by (apply Z.mul_le_mono_nonneg_r; lia).
      change (2 ^ 53) with (2 ^ 52 + 2 ^ 52) in *.
      destruct HS as [-> | (Hmy2 & HS0 & HS)]; [lia | ].
      rewrite Hmy2 in *. nia. }
    apply binary_round_aux_finite with (k := Z.pos (digits2_pos m)); lia. }
  split; [exact Hfin | ]. intros s' m' e' Hr.
  pose proof (binary_round_aux_upper _ _ _ _ _ _ Hr) as H. cbv zeta in H.
  destruct H as (He1 & _). rewrite fexp_binary64 in He1.
  split; [lia | ].
  destruct HS as [-> | (Hmy2 & HS0 & HS)].
  - apply (binary_round_aux_le s s' m m' my e e' ey b Hr He Hey Hc). lia.
  - rewrite Hmy2 in *.
    apply (binary_round_aux_absorb s s' m m' e e' ey b S Hr); try lia.
Qed.

Lemma binary_round_barrier (s : bool) (m my : positive) (e ey S : Z) :
  -1074 <= e -> ey <= 900 ->
  fexp prec emax (Z.pos (digits2_pos my) + ey) = ey ->
  S = 0 \/ (Z.pos my = 2 ^ 52 /\ 0 <= S /\ 2 * S < 2 ^ (ey + 1074)) ->
  Z.pos m * 2 ^ (e + 1074) <= Z.pos my * 2 ^ (ey + 1074) + S ->
  let r := binary_round prec emax s m e in
  is_finite_spec r = true
  /\ magnitude r <= Z.pos my * 2 ^ (ey + 1074).
Proof.
  intros He Hey9 Hc HS Hle. unfold binary_round.
  destruct (canonical_bounds _ _ Hc) as (Hey0 & _ & _).
  pose proof (shl_align_spec m e (fexp prec emax (Z.pos (digits2_pos m) + e)))
    as H.
  destruct (shl_align m e (fexp prec emax (Z.pos (digits2_pos m) + e)))
    as [mz ez].
  destruct H as [Hez Hmz]. rewrite fexp_binary64 in Hez.
  assert (Hez0 : -1074 <= ez <= e) by lia.
  assert (HS' : S = 0
                \/ (Z.pos my = 2 ^ 52 /\ 0 <= S /\ 2 * S < 2 ^ (ey - -1074)))
    by (replace (ey - -1074) with (ey + 1074) by lia; exact HS).
  assert (Hle' : Z.pos mz * 2 ^ (ez - -1074)
                 <= Z.pos my * 2 ^ (ey - -1074) + S).
  { replace (ey - -1074) with (ey + 1074) by lia.
    rewrite Hmz, <- Z.mul_assoc, <- Z.pow_add_r by lia.
    replace (e - ez + (ez - -1074)) with (e + 1074) by lia. exact Hle. }
  destruct (binary_round_aux_barrier s mz my ez ey (-1074) S
              ltac:(lia) ltac:(lia) Hey9 Hc HS' Hle') as [Hfin Hr].
  cbv zeta. split; [exact Hfin | ].
  destruct (binary_round_aux prec emax s (Z.pos mz) ez loc_Exact)
      as [ | | | s' m' e'] eqn:Hres; cbn [magnitude];
      try (apply Z.mul_nonneg_nonneg; [lia | apply Z.pow_nonneg; lia]).
    destruct (Hr s' m' e' eq_refl) as [_ H].
    replace (e' - -1074) with (e' + 1074) in H by lia.
    replace (ey - -1074) with (ey + 1074) in H by lia. exact H.
Qed.

Lemma binary_normalize_barrier (m : Z) (my : positive) (e ey S : Z) :
  -1074 <= e -> ey <= 900 ->
  fexp prec emax (Z.pos (digits2_pos my) + ey) = ey ->
  S = 0 \/ (Z.pos my = 2 ^ 52 /\ 0 <= S /\ 2 * S < 2 ^ (ey + 1074)) ->
  Z.abs m * 2 ^ (e + 1074) <= Z.pos my * 2 ^ (ey + 1074) + S ->
  let r := binary_normalize prec emax m e false in
  is_finite_spec r = true
  /\ magnitude r <= Z.pos my * 2 ^ (ey + 1074).
Proof.
  intros He Hey9 Hc HS Hle.
  destruct m as [ | p | p]; cbn [binary_normalize].
  - split; [reflexivity | ]. cbn [magnitude].
    apply Z.mul_nonneg_nonneg; [lia | apply Z.pow_nonneg; lia].
  - now apply binary_round_barrier with (S := S).
  - now apply binary_round_barrier with (S := S).
Qed.

(** *** Products and sums of bounded doubles *)

Lemma mul_within (bx by_ bz x y : float) :
  bound bz -> within bx x -> within by_ y ->
  magnitude (Prim2SF bx) * magnitude (Prim2SF by_)
  <= magnitude (Prim2SF bz) * 2 ^ 1074 ->
  within bz (x * y)%float.
Proof.
  intros (mz & ez & Hz & Hez) [Hfx Hx] [Hfy Hy] Hprod.
  destruct (valid_finite _ _ _ _ Hz) as [Hcz _].
  destruct (canonical_bounds _ _ Hcz) as (Hez0 & _ & _).
  unfold within. rewrite is_finite_Prim2SF in *. rewrite mul_spec, Hz in *.
  cbn [magnitude] in *.
  assert (HY : 0 <= Z.pos mz * 2 ^ (ez + 1074))
    by (apply Z.mul_nonneg_nonneg; [lia | apply Z.pow_nonneg; lia]).
  destruct (Prim2SF x) as [sx | sx | | sx mx ex] eqn:Ex; try discriminate;
    destruct (Prim2SF y) as [sy | sy | | sy my ey] eqn:Ey; try discriminate;
    unfold SF64mul; cbn [SFmul]; try (split; [reflexivity | exact HY]).
  destruct (valid_finite _ _ _ _ Ex) as [Hcx _].
  destruct (valid_finite _ _ _ _ Ey) as [Hcy _].
  destruct (canonical_bounds _ _ Hcx) as (Hex0 & _ & _).
  destruct (canonical_bounds _ _ Hcy) as (Hey0 & _ & _).
  cbn [magnitude] in Hx, Hy.
  assert (Hxy : Z.pos (mx * my) * 2 ^ (ex + ey - -2148)
                <= Z.pos mz * 2 ^ (ez - -2148) + 0).
  { rewrite Z.add_0_r.
    replace (ex + ey - -2148) with ((ex + 1074) + (ey + 1074)) by lia.
    replace (ez - -2148) with ((ez + 1074) + 1074) by lia.
    rewrite (Z.pow_add_r 2 (ex + 1074)), (Z.pow_add_r 2 (ez + 1074)) by lia.
    rewrite Pos2Z.inj_mul.
    assert (0 <= Z.pos mx * 2 ^ (ex + 1074))
      by (apply Z.mul_nonneg_nonneg; [lia | apply Z.pow_nonneg; lia]).
    assert (0 <= Z.pos my * 2 ^ (ey + 1074))
      by (apply Z.mul_nonneg_nonneg; [lia | apply Z.pow_nonneg; lia]).
    assert (Z.pos mx * 2 ^ (ex + 1074) * (Z.pos my * 2 ^ (ey + 1074))
            <= magnitude (Prim2SF bx) * magnitude (Prim2SF by_))
      by (apply Z.mul_le_mono_nonneg; lia).
    lia. }
  destruct (binary_round_aux_barrier (xorb sx sy) (mx * my) mz (ex + ey) ez
              (-2148) 0 ltac:(lia) ltac:(lia) Hez Hcz (or_introl eq_refl) Hxy)
    as [Hfin Hr].
  split; [exact Hfin | ].
  destruct (binary_round_aux prec emax (xorb sx sy) (Z.pos (mx * my))
              (ex + ey) loc_Exact) as [ | | | s' m' e'] eqn:Hres;
    cbn [magnitude]; try exact HY.
  destruct (Hr s' m' e' eq_refl) as [He' H].
  replace (e' - -2148) with ((e' + 1074) + 1074) in H by lia.
  replace (ez - -2148) with ((ez + 1074) + 1074) in H by lia.
  rewrite (Z.pow_add_r 2 (e' + 1074)), (Z.pow_add_r 2 (ez + 1074)),
    !Z.mul_assoc in H by lia.
  apply Z.mul_le_mono_pos_r with (p := 2 ^ 1074); [reflexivity | exact H].
Qed.

Lemma add_within (bx by_ bz x y : float) (S : Z) :
  bound bz -> within bx x -> within by_ y ->
  S = 0
  \/ (exists ez, Prim2SF bz = S754_finite false 4503599627370496 ez
                 /\ 0 <= S /\ 2 * S < 2 ^ (ez + 1074)) ->
  magnitude (Prim2SF bx) <= magnitude (Prim2SF bz) ->
  magnitude (Prim2SF by_) <= magnitude (Prim2SF bz) ->
  magnitude (Prim2SF bx) + magnitude (Prim2SF by_)
  <= magnitude (Prim2SF bz) + S ->
  within bz (x + y)%float.
Proof.
  intros (mz & ez & Hz & Hez) [Hfx Hx] [Hfy Hy] HS HxY HyY Hsum.
  destruct (valid_finite _ _ _ _ Hz) as [Hcz _].
  assert (HS' : S = 0 \/ (Z.pos mz = 2 ^ 52 /\ 0 <= S /\ 2 * S < 2 ^ (ez + 1074))).
  { destruct HS as [HS | (ez' & Hz' & HS)]; [left; exact HS | right].
    rewrite Hz in Hz'. injection Hz' as -> ->. split; [reflexivity | exact HS]. }
  assert (HS0 : 0 <= S) by (destruct HS' as [-> | (_ & H & _)]; lia).
  pose proof (magnitude_nonneg (Prim2SF bx)) as Hbx0.
  pose proof (magnitude_nonneg (Prim2SF by_)) as Hby0.
  unfold within. rewrite is_finite_Prim2SF in *. rewrite add_spec, Hz in *.
  cbn [magnitude] in Hsum, HxY, HyY |- *.
  set (Y := Z.pos mz * 2 ^ (ez + 1074)) in *.
  assert (HyY' : magnitude (Prim2SF y) <= Y) by lia.
  assert (HxY' : magnitude (Prim2SF x) <= Y) by lia.
  destruct (Prim2SF x) as [sx | sx | | sx mx ex] eqn:Ex; try discriminate;
    destruct (Prim2SF y) as [sy | sy | | sy my ey] eqn:Ey; try discriminate;
    unfold SF64add; cbn [SFadd].
  - split; [destruct sx, sy; reflexivity | ].
    destruct sx, sy; cbn [magnitude]; unfold Y;
      apply Z.mul_nonneg_nonneg; try lia; apply Z.pow_nonneg; lia.
  - split; [reflexivity | exact HyY'].
  - split; [reflexivity | exact HxY'].
  - destruct (valid_finite _ _ _ _ Ex) as [Hcx _].
    destruct (valid_finite _ _ _ _ Ey) as [Hcy _].
    destruct (canonical_bounds _ _ Hcx) as (Hex0 & _ & _).
    destruct (canonical_bounds _ _ Hcy) as (Hey0 & _ & _).
    cbn [magnitude] in Hx, Hy. cbv zeta.
    set (ez' := Z.min ex ey).
    pose proof (shl_align_spec mx ex ez') as Hax.
    pose proof (shl_align_spec my ey ez') as Hay.
    destruct (shl_align mx ex ez') as [ax ex'].
    destruct (shl_align my ey ez') as [ay ey'].
    destruct Hax as [Hex' Hax]. destruct Hay as [Hey' Hay]. cbn [fst].
    replace ex' with ez' in Hax by (unfold ez' in *; lia).
    replace ey' with ez' in Hay by (unfold ez' in *; lia).
    apply binary_normalize_barrier with (S := S); try assumption;
      try (unfold ez'; lia).
    apply Z.le_trans with
      ((Z.pos ax + Z.pos ay) * 2 ^ (ez' + 1074)).
    + apply Z.mul_le_mono_nonneg_r; [apply Z.pow_nonneg; unfold ez'; lia | ].
      destruct sx, sy; cbn [cond_Zopp]; lia.
    + rewrite Z.mul_add_distr_r, Hax, Hay, <- !Z.mul_assoc, <- !Z.pow_add_r
        by (unfold ez'; lia).
      replace (ex - ez' + (ez' + 1074)) with (ex + 1074) by lia.
      replace (ey - ez' + (ez' + 1074)) with (ey + 1074) by lia.
      fold Y. lia.
Qed.

End Magnitudes.

Section Bounded_swing.
Local Open Scope float_scope.
Import Binary64 Physics.

Variables sin cos : float -> float.

Let N64 : Number float := binary64 sin cos.
Local Existing Instance N64.

(** The fields of a swinging pendulum after [update], on doubles. *)
Lemma update_swinging (this : Pendulum float) (totalTime : float) :
  isSwinging this = true ->
  let deltaTime := (totalTime - lastUpdateTime this) / 1000 in
  let velocity' :=
    velocity this + -1.2262500000000001 * sin (angle this) * deltaTime in
  angle (update this totalTime) = angle this + velocity' * deltaTime
  /\ velocity (update this totalTime) = velocity' * 0.99995
  /\ lastUpdateTime (update this totalTime) = totalTime
  /\ isSwinging (update this totalTime) = true.
Proof.
  intros H. unfold update. rewrite H. repeat split. exact H.
Qed.

(** Side conditions on the constants 0.0625, 0.125, 1, 2, 512, 4096,
    4096.125, 2^64 and the literals of [update] are settled by
    evaluation. *)
Ltac closed_bound :=
  match goal with
  | |- bound _ =>
      eexists _, _; split; [vm_compute; reflexivity | vm_compute; discriminate]
  | |- within _ _ => split; [reflexivity | vm_compute; discriminate]
  | |- (_ <= _)%Z => vm_compute; discriminate
  | |- (_ < _)%Z => vm_compute; reflexivity
  end.

(** One [update] keeps the box: the acceleration is at most 2, the
    velocity grows by at most 0.125 to at most 4096.125 and is damped
    back below 4096; the angle moves by at most 512, which a double at
    2^64 does not feel. *)
Lemma update_within (this : Pendulum float) (totalTime : float) :
  (forall x, is_finite x = true -> (abs (sin x) <=? 1) = true) ->
  isSwinging this = true ->
  within 0x1p64 (angle this) ->
  within 4096 (velocity this) ->
  within 0.0625 ((totalTime - lastUpdateTime this) / 1000) ->
  within 0x1p64 (angle (update this totalTime))
  /\ within 4096 (velocity (update this totalTime)).
Proof.
  intros Hsin Hs Ha Hv Hdt.
  destruct (update_swinging this totalTime Hs) as (-> & -> & _).
  set (dt := (totalTime - lastUpdateTime this) / 1000) in *.
  assert (Hsa : within 1 (sin (angle this))).
  { apply leb_within; [closed_bound | ]. apply Hsin. exact (proj1 Ha). }
  assert (Hacc : within 2 (-1.2262500000000001 * sin (angle this))).
  { apply mul_within with (bx := 1.2262500000000001) (by_ := 1);
      [closed_bound | closed_bound | exact Hsa | closed_bound]. }
  assert (Hkick : within 0.125 (-1.2262500000000001 * sin (angle this) * dt)).
  { apply mul_within with (bx := 2) (by_ := 0.0625);
      [closed_bound | exact Hacc | exact Hdt | closed_bound]. }
  assert (Hw : within 4096.125
                 (velocity this
                  + -1.2262500000000001 * sin (angle this) * dt)).
  { apply add_within with (bx := 4096) (by_ := 0.125) (S := 0%Z);
      [closed_bound | exact Hv | exact Hkick | left; reflexivity
      | closed_bound | closed_bound | closed_bound]. }
  set (w := velocity this + -1.2262500000000001 * sin (angle this) * dt) in *.
  split.
  - assert (Hstep : within 512 (w * dt)).
    { apply mul_within with (bx := 4096.125) (by_ := 0.0625);
        [closed_bound | exact Hw | exact Hdt | closed_bound]. }
    apply add_within with (bx := 0x1p64) (by_ := 512)
                          (S := magnitude (Prim2SF 512));
      [closed_bound | exact Ha | exact Hstep | right | closed_bound
      | closed_bound | closed_bound].
    exists 12%Z. split; [vm_compute; reflexivity | ].
    split; closed_bound.
  - apply mul_within with (bx := 4096.125) (by_ := 0.99995);
      [closed_bound | exact Hw | | closed_bound].
    closed_bound.
Qed.

(** Frames leave a pendulum that does not swing where it is. *)
Lemma frames_idle (times : list float) (this : Pendulum float) :
  isSwinging this = false ->
  angle (Spec.frames this times) = angle this
  /\ velocity (Spec.frames this times) = velocity this.
Proof.
  revert this. induction times as [ | t times IH]; intros this H.
  - split; reflexivity.
  - simpl. fold (Spec.frames (update this t) times).
    assert (Hu : isSwinging (update this t) = false
                 /\ angle (update this t) = angle this
                 /\ velocity (update this t) = velocity this)
      by (unfold update; rewrite H; repeat split; exact H).
    destruct Hu as (Hs & Ha & Hv). destruct (IH _ Hs) as [IHa IHv].
    rewrite IHa, IHv. auto.
Qed.

Lemma paced_firstn (n : nat) (times : list float) (last : float) :
  paced last times = true -> paced last (firstn n times) = true.
Proof.
  revert times last. induction n as [ | n IH]; intros [ | t times] last H;
    try reflexivity.
  simpl in *. apply andb_prop in H. destruct H as [H1 H2].
  now rewrite H1, (IH _ _ H2).
Qed.

Lemma frames_within (times : list float) (this : Pendulum float) :
  (forall x, is_finite x = true -> (abs (sin x) <=? 1) = true) ->
  isSwinging this = true ->
  within 0x1p64 (angle this) ->
  within 4096 (velocity this) ->
  paced (lastUpdateTime this) times = true ->
  within 0x1p64 (angle (Spec.frames this times))
  /\ within 4096 (velocity (Spec.frames this times)).
Proof.
  intros Hsin. revert this.
  induction times as [ | t times IH]; intros this Hs Ha Hv Hp.
  - split; assumption.
  - simpl in Hp. apply andb_prop in Hp. destruct Hp as [Hdt Hp].
    apply leb_within in Hdt; [ | closed_bound].
    destruct (update_within this t Hsin Hs Ha Hv Hdt) as [Ha' Hv'].
    destruct (update_swinging this t Hs) as (_ & _ & Ht & Hs').
    simpl. fold (Spec.frames (update this t) times).
    apply IH; try assumption. rewrite Ht. exact Hp.
Qed.


End Bounded_swing.

Section Faint_swing.
Local Open Scope float_scope.
Import Binary64 Physics.
Local Existing Instance js.

(** [update] reads the clock through [deltaTime] alone: two swinging
    pendulums at the same angle and velocity move alike when both see
    0.008 s. *)
Lemma next_frame_tracks (p q : Pendulum float) (totalTime : float) :
  isSwinging p = true -> isSwinging q = true ->
  angle p = angle q -> velocity p = velocity q ->
  (totalTime - lastUpdateTime p) / 1000 = 0.008 ->
  isSwinging (update p totalTime) = true
  /\ isSwinging (next_frame q) = true
  /\ angle (update p totalTime) = angle (next_frame q)
  /\ velocity (update p totalTime) = velocity (next_frame q)
  /\ lastUpdateTime (update p totalTime) = totalTime.
Proof.
  intros Hp Hq Ha Hv Hdt.
  destruct (update_swinging taylor_sin taylor_cos p totalTime Hp)
    as (Ea & Ev & Et & Es).
  destruct (update_swinging taylor_sin taylor_cos (set_lastUpdateTime q 0) 8 Hq)
    as (Ea' & Ev' & _ & Es').
  cbv zeta in *. unfold next_frame.
  change (@update float js) with (@update float (binary64 taylor_sin taylor_cos)).
  rewrite Ea, Ev, Ea', Ev', Hdt, Ha, Hv.
  repeat split; assumption.
Qed.

(** A steady run from the [k]-th state of [faint]'s orbit ends at the
    orbit's state number [length times + k]. *)
Lemma steady_frames_orbit (times : list float) (p : Pendulum float) (k : nat) :
  steady 0.008 (lastUpdateTime p) times ->
  isSwinging p = true ->
  isSwinging (Nat.iter k next_frame faint) = true ->
  angle p = angle (Nat.iter k next_frame faint) ->
  velocity p = velocity (Nat.iter k next_frame faint) ->
  angle (Spec.frames p times)
  = angle (Nat.iter (length times + k) next_frame faint)
  /\ velocity (Spec.frames p times)
     = velocity (Nat.iter (length times + k) next_frame faint).
Proof.
  revert p k. induction times as [ | t times IH]; intros p k Hst Hp Hq Ha Hv.
  - split; assumption.
  - destruct Hst as [Hdt Hst].
    destruct (next_frame_tracks p (Nat.iter k next_frame faint) t Hp Hq Ha Hv Hdt)
      as (Hp' & Hq' & Ha' & Hv' & Ht).
    simpl length. rewrite Nat.add_succ_comm.
    simpl Spec.frames. fold (Spec.frames (update p t) times).
    apply IH; try assumption. rewrite Ht. exact Hst.
Qed.

(** The orbit of [faint] closes after 454 frames. *)
Lemma orbit_period (rounds j : nat) :
  Nat.iter (j + 454 * rounds) next_frame faint = Nat.iter j next_frame faint.
Proof.
  induction rounds as [ | r IH].
  - rewrite Nat.mul_0_r, Nat.add_0_r. reflexivity.
  - replace (j + 454 * S r)%nat with ((j + 454 * r) + 454)%nat by lia.
    rewrite Nat.iter_add.
    replace (Nat.iter 454 next_frame faint) with faint
      by (vm_compute; reflexivity).
    exact IH.
Qed.



End Faint_swing.

(** ** The program run on doubles *)
Section Runs.
Local Open Scope float_scope.
Import Binary64 Physics.
Local Existing Instance js.

(** C9.  A pointer move during a drag reaches every pendulum at once.
    With the button down in the middle of the window (all angles 0), a
    move to the right edge leaves the handler [onMouseMove] with all
    twelve angles at [Math.PI/4] and no callback pending: pendulum [i]
    did not wait [30 * i] ms.  The [index * 30] ms delay exists in the
    frame update of [main], whose callbacks then find the angles
    already set: running the one of pendulum 2 changes nothing. *)
Theorem pointer_move_is_not_staggered :
  let moved :=
    onMouseMove full_hd pressed {| clientX := 1920; clientY := 540 |} in
  let framed := main_update moved 16 1000 in
  isDragging pressed = true
  /\ map angle (pendulums pressed) = repeat 0 12
  /\ timers pressed = []
  /\ map angle (pendulums moved) = repeat (float_PI / 4) 12
  /\ timers moved = []
  /\ pendulums framed = pendulums moved
  /\ map delay (timers framed)
     = [0; 30; 60; 90; 120; 150; 180; 210; 240; 270; 300; 330]%Z
  /\ pendulums (run_callback full_hd 1060 framed (setAngleFromMouse_callback 2))
     = pendulums moved.
Proof. vm_compute. repeat split. Qed.

(** The kinematic variant at the start and one second in. *)
Lemma kinematic_run :
  let shown p := THREE.z (THREE.rotation (Kinematic.string p)) in
  shown (Kinematic.update kinematic_pendulum 0) = 0.5
  /\ shown (Kinematic.update kinematic_pendulum 1000) = 0.18112640000000002
  /\ shown (Kinematic.update (Kinematic.update kinematic_pendulum 1000) 0)
     = 0.5.
Proof. vm_compute. repeat split. Qed.

(** The end-to-end scenario of the specification: button down at the
    right edge, then up.  One [startSwinging] per pendulum is asked for,
    [index * 100] ms apart; once they have run, every pendulum swings
    from rest at [Math.PI/4]. *)
Lemma release_cascade :
  let down :=
    onMouseDown full_hd initial {| clientX := 1920; clientY := 540 |} in
  let up := onMouseUp down {| clientX := 1920; clientY := 540 |} in
  let after :=
    fold_left (run_callback full_hd 2000) (map callback (timers up)) up in
  map delay (timers up)
  = [0; 100; 200; 300; 400; 500; 600; 700; 800; 900; 1000; 1100]%Z
  /\ map callback (timers up) = map startSwinging_callback (seq 0 12)
  /\ map isSwinging (pendulums up) = repeat false 12
  /\ map (fun p => (isSwinging p, velocity p, angle p, lastUpdateTime p))
         (pendulums after)
     = repeat (true, 0, float_PI / 4, 2000) 12.
Proof. vm_compute. repeat split. Qed.

Lemma update_is_one_integration_step_run :
  isSwinging released = true
  /\ (angle (update released 116), velocity (update released 116),
      lastUpdateTime (update released 116))
     = (0.39257894971582796, -0.0075078735185652116, 116).
Proof.
  split; [reflexivity | ].
  etransitivity.
  - exact (proj1 (update_is_one_integration_step taylor_sin taylor_cos
                    released 116 eq_refl)).
  - vm_compute. reflexivity.
Defined.

Lemma setAngleFromMouse_linear_map_run :
  ((1 <=? 1920) = true /\ (1920 <? infinity) = true)
  /\ angle (setAngleFromMouse full_hd released 960 7) = 0
  /\ angle (setAngleFromMouse full_hd released 0 7) = -0.78539816339744828
  /\ angle (setAngleFromMouse full_hd released 1920 7) = 0.78539816339744828.
Proof.
  split; [split; reflexivity | ].
  apply (proj2 (proj2 (proj2 (proj2 (proj2 (proj2
           (setAngleFromMouse_linear_map taylor_sin taylor_cos
              full_hd released 0 7))))))); reflexivity.
Defined.

Lemma rest_at_angle_zero_is_fixed_run :
  (taylor_sin 0 = 0 /\ taylor_sin (-0) = (-0)
   /\ is_zero (angle (pendulum_number 0%float)) = true
   /\ forallb timestamp [100; 116; 133; 150; 166] = true)
  /\ let after :=
       Spec.frames (startSwinging (pendulum_number 0%float) 100)
         (firstn 3 [116; 133; 150; 166]) in
     is_zero (velocity after) = true
     /\ is_zero (angle after) = true
     /\ velocity after = 0
     /\ (angle (pendulum_number 0%float) = 0 -> angle after = 0).
Proof.
  split; [repeat split | ].
  apply (rest_at_angle_zero_is_fixed taylor_sin taylor_cos
           (pendulum_number 0%float) 100 [116; 133; 150; 166] 3); reflexivity.
Defined.

Lemma stopSwinging_only_clears_flag_run :
  isSwinging (stopSwinging released) = false
  /\ angle (update (stopSwinging released) 116) = angle released
  /\ velocity (update (stopSwinging released) 116) = velocity released
  /\ lastUpdateTime (update (stopSwinging released) 116) = 100.
Proof.
  split; [reflexivity | ].
  destruct (proj2 (stopSwinging_only_clears_flag (stopSwinging released) 116)
              eq_refl) as (Ha & Hv & Ht & _).
  rewrite Ha, Hv, Ht. repeat split.
Defined.

Lemma motion_independent_of_parameters_run :
  Spec.motion slow = Spec.motion fast
  /\ (frequency slow, amplitude slow) = (1.2, 0.5)
  /\ (frequency fast, amplitude fast) = (1.75, 0.3)
  /\ Spec.motion (Spec.perform_all slow session)
     = Spec.motion (Spec.perform_all fast session)
  /\ Spec.displayed (Spec.perform_all slow session)
     = Spec.displayed (Spec.perform_all fast session).
Proof.
  do 3 (split; [reflexivity | ]).
  destruct (motion_independent_of_parameters session slow fast eq_refl)
    as (Hm & Hd & _).
  split; [exact Hm | apply Hd; now left].
Defined.
End Runs.

(** * The program at work

    What follows is about [main] as a whole: its listeners, its frame
    loop and the callbacks it hands to [setTimeout]. *)

(** ** Whatever the arithmetic *)
Section Controller.
Context {num : Type} {N : Number num}.
Local Open Scope num_scope.
Import Physics Page.

Lemma nth_error_at_index (index j : nat) f (l : list (Pendulum num)) :
  nth_error (at_index index f l) j
  = if Nat.eqb j index then option_map f (nth_error l j) else nth_error l j.
Proof.
  revert index j. induction l as [ | p l IH]; intros [ | i] [ | j]; simpl;
    try reflexivity.
  - now destruct (Nat.eqb j i).
  - apply IH.
Qed.

Lemma at_index_fixed (index : nat) f (l : list (Pendulum num)) :
  Forall (fun p => f p = p) l -> at_index index f l = l.
Proof.
  intros H. revert index. induction H as [ | p l Hp Hl IH]; intros [ | i];
    simpl; try reflexivity.
  - now rewrite Hp.
  - now rewrite IH.
Qed.

Lemma at_index_built (index : nat) f (l : list (Pendulum num)) :
  (forall p, built (f p) = built p) ->
  map built (at_index index f l) = map built l.
Proof.
  intros H. revert index. induction l as [ | p l IH]; intros [ | i]; simpl;
    try reflexivity.
  - now rewrite H.
  - now rewrite IH.
Qed.

Lemma at_index_mirrored (index : nat) f (l : list (Pendulum num)) :
  (forall p, mirrored p -> mirrored (f p)) ->
  Forall mirrored l -> Forall mirrored (at_index index f l).
Proof.
  intros H Hl. revert index. induction Hl as [ | p l Hp Hl IH]; intros [ | i];
    simpl; constructor; auto.
Qed.

Lemma update_built (p : Pendulum num) (totalTime : num) :
  built (update p totalTime) = built p.
Proof. unfold update. now destruct (isSwinging p). Qed.

Lemma update_mirrored (p : Pendulum num) (totalTime : num) :
  mirrored (update p totalTime).
Proof. apply update_displayed. Qed.

(** The fields a [forEach] of [setTimeout] calls leaves alone. *)
Lemma setTimeout_each_times (cb : nat -> Callback) (ms : nat -> Z)
    (l : list nat) (s : State num) :
  let s' := fold_left (fun s index => setTimeout s (cb index) (ms index)) l s in
  (startTime s', lastFrameTime s', clickAngle s')
  = (startTime s, lastFrameTime s, clickAngle s).
Proof.
  revert s. induction l as [ | i l IH]; intros s; simpl.
  - reflexivity.
  - now rewrite (IH (setTimeout s (cb i) (ms i))).
Qed.

Lemma onMouseUp_state (s : State num) (event : MouseEvent num) :
  onMouseUp s event
  = {| isDragging := false; lastMouseX := lastMouseX s;
       lastMouseY := lastMouseY s; clickAngle := clickAngle s;
       pendulums := pendulums s; startTime := startTime s;
       lastFrameTime := lastFrameTime s;
       timers := timers s
                 ++ cascade startSwinging_callback 100
                      (length (pendulums s)) |}.
Proof.
  unfold onMouseUp.
  pose proof (setTimeout_each startSwinging_callback
                (fun index => (Z.of_nat index * 100)%Z)
                (indices (set_isDragging s false)) (set_isDragging s false))
    as H.
  pose proof (setTimeout_each_times startSwinging_callback
                (fun index => (Z.of_nat index * 100)%Z)
                (indices (set_isDragging s false)) (set_isDragging s false))
    as H'.
  cbv zeta in H, H'. destruct H as (Ht & Hp & Hd).
  destruct (fold_left _ _ _) as [d mx my ca ps st lf ts].
  simpl in *. injection Hd as -> -> ->. injection H' as -> -> ->.
  subst. reflexivity.
Qed.

Lemma main_update_dragging_state (s : State num) (deltaTime totalTime : num) :
  isDragging s = true ->
  main_update s deltaTime totalTime
  = set_timers s
      (timers s
       ++ cascade setAngleFromMouse_callback 30 (length (pendulums s))).
Proof.
  intros Hd. unfold main_update. rewrite Hd.
  pose proof (setTimeout_each setAngleFromMouse_callback
                (fun index => (Z.of_nat index * 30)%Z) (indices s) s) as H.
  pose proof (setTimeout_each_times setAngleFromMouse_callback
                (fun index => (Z.of_nat index * 30)%Z) (indices s) s) as H'.
  cbv zeta in H, H'. destruct H as (Ht & Hp & Hq).
  destruct (fold_left _ _ _) as [d mx my ca ps st lf ts].
  unfold set_timers. simpl in *. injection Hq as -> -> ->.
  injection H' as -> -> ->. subst. reflexivity.
Qed.

Lemma animationFrame_clock (s : State num) (time : num) :
  let ticked :=
    set_lastFrameTime
      (set_startTime s (Some match startTime s with
                             | Some t0 => t0
                             | None => time
                             end))
      (Some time) in
  animationFrame s time
  = main_update ticked
      (since (Some match lastFrameTime s with
                   | Some t1 => t1
                   | None => time
                   end) time)
      (since (startTime ticked) time).
Proof.
  unfold animationFrame.
  destruct s as [d mx my ca ps [t0 | ] [t1 | ] ts]; reflexivity.
Qed.

Lemma main_update_kept (s : State num) (deltaTime totalTime : num) :
  let s' := main_update s deltaTime totalTime in
  (isDragging s', lastMouseX s', lastMouseY s', clickAngle s',
   startTime s', lastFrameTime s')
  = (isDragging s, lastMouseX s, lastMouseY s, clickAngle s,
     startTime s, lastFrameTime s).
Proof.
  cbv zeta. destruct (isDragging s) eqn:Hd.
  - rewrite (main_update_dragging_state s deltaTime totalTime Hd). simpl.
    now rewrite Hd.
  - unfold main_update. rewrite Hd. simpl. now rewrite Hd.
Qed.

Lemma main_update_startTime (s : State num) (deltaTime totalTime : num) :
  startTime (main_update s deltaTime totalTime) = startTime s.
Proof.
  pose proof (main_update_kept s deltaTime totalTime) as H. cbv zeta in H.
  now injection H.
Qed.

Lemma fire_kept (window : Window num) (now : num) (s : State num) (k : nat) :
  let s' := fire window now s k in
  (isDragging s', lastMouseX s', lastMouseY s', clickAngle s',
   startTime s', lastFrameTime s')
  = (isDragging s, lastMouseX s, lastMouseY s, clickAngle s,
     startTime s, lastFrameTime s).
Proof.
  cbv zeta. unfold fire. destruct (nth_error (timers s) k) as [[[i | i] ms] | ];
    reflexivity.
Qed.

(** Whatever happens, the clock's origin stays once it is set. *)
Lemma react_startTime (s : State num) (h : Happening num) (t0 : num) :
  startTime s = Some t0 -> startTime (react s h) = Some t0.
Proof.
  intros H. destruct h as [w e | w e | e | time | w now k]; simpl.
  - exact H.
  - unfold onMouseMove. now destruct (isDragging s).
  - now rewrite onMouseUp_state.
  - rewrite animationFrame_clock. cbv zeta. rewrite main_update_startTime.
    simpl. now rewrite H.
  - pose proof (fire_kept w now s k) as Hk. cbv zeta in Hk.
    injection Hk as _ _ _ _ Hs _. now rewrite Hs.
Qed.

Lemma react_all_startTime
    (hs : list (Happening num)) (s : State num) (t0 : num) :
  startTime s = Some t0 -> startTime (react_all s hs) = Some t0.
Proof.
  revert s. induction hs as [ | h hs IH]; intros s H; simpl.
  - exact H.
  - apply IH. now apply react_startTime.
Qed.

Lemma map_built_map (f : Pendulum num -> Pendulum num)
    (l : list (Pendulum num)) :
  (forall p, built (f p) = built p) -> map built (map f l) = map built l.
Proof.
  intros H. rewrite map_map. apply map_ext. exact H.
Qed.

Lemma react_built (s : State num) (h : Happening num) :
  map built (pendulums (react s h)) = map built (pendulums s).
Proof.
  destruct h as [w e | w e | e | time | w now k]; simpl.
  - apply map_built_map. reflexivity.
  - unfold onMouseMove. destruct (isDragging s); [ | reflexivity].
    apply map_built_map. reflexivity.
  - now rewrite onMouseUp_state.
  - rewrite animationFrame_clock. cbv zeta.
    destruct (isDragging s) eqn:Hd.
    + now rewrite main_update_dragging_state.
    + unfold main_update. simpl. rewrite Hd. simpl.
      apply map_built_map. intros p. apply update_built.
  - unfold fire. destruct (nth_error (timers s) k) as [[[i | i] ms] | ];
      [ | | reflexivity]; simpl; apply at_index_built; reflexivity.
Qed.

Lemma Forall_mirrored_map {A : Type} (f : A -> Pendulum num) (l : list A) :
  (forall p, mirrored (f p)) -> Forall mirrored (map f l).
Proof.
  intros H. apply Forall_forall. intros p Hp. apply in_map_iff in Hp.
  destruct Hp as (q & <- & _). apply H.
Qed.

Lemma react_mirrored (s : State num) (h : Happening num) :
  Forall mirrored (pendulums s) -> Forall mirrored (pendulums (react s h)).
Proof.
  intros H. destruct h as [w e | w e | e | time | w now k]; simpl.
  - apply Forall_mirrored_map. reflexivity.
  - unfold onMouseMove. destruct (isDragging s); [ | exact H].
    apply Forall_mirrored_map. reflexivity.
  - now rewrite onMouseUp_state.
  - rewrite animationFrame_clock. cbv zeta.
    destruct (isDragging s) eqn:Hd.
    + now rewrite main_update_dragging_state.
    + unfold main_update. simpl. rewrite Hd. simpl.
      apply Forall_mirrored_map. intros p. apply update_mirrored.
  - unfold fire. destruct (nth_error (timers s) k) as [[[i | i] ms] | ];
      [ | | exact H]; simpl; apply at_index_mirrored; try exact H.
    + reflexivity.
    + intros p Hp. exact Hp.
Qed.

Lemma Forall2_map_same {A B : Type} (rel : A -> B -> Prop) (f : A -> B)
    (l : list A) :
  (forall a, rel a (f a)) -> Forall2 rel l (map f l).
Proof. intros H. induction l; simpl; constructor; auto. Qed.

Lemma animationFrame_kept (s : State num) (time : num) :
  let s' := animationFrame s time in
  (isDragging s', lastMouseX s', lastMouseY s', clickAngle s')
  = (isDragging s, lastMouseX s, lastMouseY s, clickAngle s)
  /\ lastFrameTime s' = Some time.
Proof.
  cbv zeta. rewrite animationFrame_clock. cbv zeta.
  match goal with
  | |- context [main_update ?u ?d ?t] =>
      generalize (main_update_kept u d t); generalize (main_update u d t)
  end.
  cbv zeta. simpl. intros s' Hk. injection Hk as -> -> -> -> _ ->.
  now split.
Qed.

Lemma animationFrame_dragging (s : State num) (time : num) :
  isDragging s = true ->
  let s' := animationFrame s time in
  isDragging s' = true
  /\ pendulums s' = pendulums s
  /\ timers s'
     = timers s ++ cascade setAngleFromMouse_callback 30 (length (pendulums s)).
Proof.
  intros Hd. cbv zeta. rewrite animationFrame_clock. cbv zeta.
  rewrite main_update_dragging_state by exact Hd. simpl. now rewrite Hd.
Qed.

Lemma animationFrame_not_dragging (s : State num) (time : num) :
  isDragging s = false ->
  let s' := animationFrame s time in
  let start := match startTime s with Some t0 => t0 | None => time end in
  isDragging s' = false
  /\ startTime s' = Some start
  /\ pendulums s' = map (fun p => update p (time - start)) (pendulums s)
  /\ timers s' = timers s.
Proof.
  intros Hd. cbv zeta. rewrite animationFrame_clock. cbv zeta.
  unfold main_update. simpl. rewrite Hd. simpl. now rewrite Hd.
Qed.

Lemma frames_dragging_pendulums (times : list num) (s : State num) :
  isDragging s = true ->
  isDragging (fold_left animationFrame times s) = true
  /\ pendulums (fold_left animationFrame times s) = pendulums s.
Proof.
  revert s. induction times as [ | time times IH]; intros s Hd; simpl.
  - now split.
  - destruct (animationFrame_dragging s time Hd) as (Hd' & Hp & _).
    destruct (IH (animationFrame s time) Hd') as (IHd & IHp).
    now rewrite IHd, IHp, Hp.
Qed.

(** X1.  Pressing the button holds the whole row: [onMouseDown] asks for
    no timer and cancels none, and after it and any number of frames
    every pendulum is stopped at the angle of the pointer, displayed
    there, with the velocity and the [lastUpdateTime] it had before the
    press; the frames of the drag move nothing. *)
Theorem a_press_holds_the_row
    (window : Window num) (s : State num) (event : MouseEvent num)
    (times : list num) :
  let pressed := onMouseDown window s event in
  let s' := fold_left animationFrame times pressed in
  timers pressed = timers s
  /\ (lastMouseX pressed, lastMouseY pressed) = (clientX event, clientY event)
  /\ isDragging s' = true
  /\ Forall2
       (fun p p' =>
          isSwinging p' = false
          /\ angle p' = Spec.pointer_angle (innerWidth window) (clientX event)
          /\ Spec.displayed p' = (angle p', angle p')
          /\ velocity p' = velocity p
          /\ lastUpdateTime p' = lastUpdateTime p)
       (pendulums s) (pendulums s').
Proof.
  cbv zeta.
  destruct (frames_dragging_pendulums times (onMouseDown window s event)
              eq_refl) as (Hd & Hp).
  rewrite Hd, Hp. repeat split.
  unfold onMouseDown. simpl. apply Forall2_map_same. intros p. repeat split.
Qed.

(** X2.  Releasing the button starts no pendulum by itself: [onMouseUp]
    leaves every pendulum as it was, ends the drag, and asks for one
    [startSwinging] per pendulum, in the order of the row, [index * 100]
    ms later, after the callbacks already pending. *)
Theorem onMouseUp_starts_nothing_itself
    (s : State num) (event : MouseEvent num) :
  let s' := onMouseUp s event in
  isDragging s' = false
  /\ pendulums s' = pendulums s
  /\ timers s'
     = timers s
       ++ map (fun index =>
                 {| callback := startSwinging_callback index;
                    delay := Z.of_nat index * 100 |})
              (seq 0 (length (pendulums s)))
  /\ (lastMouseX s', lastMouseY s', startTime s', lastFrameTime s')
     = (lastMouseX s, lastMouseY s, startTime s, lastFrameTime s).
Proof.
  cbv zeta. rewrite onMouseUp_state. repeat split.
Qed.

Lemma react_listener_timers (s : State num) (h : Happening num) :
  is_listener h = true ->
  exists added, timers (react s h) = timers s ++ added.
Proof.
  intros Hl. destruct h as [w e | w e | e | time | w now k]; simpl.
  - exists []. now rewrite app_nil_r.
  - exists []. rewrite app_nil_r. unfold onMouseMove.
    now destruct (isDragging s).
  - rewrite onMouseUp_state. simpl. eexists. reflexivity.
  - rewrite animationFrame_clock. cbv zeta.
    destruct (isDragging s) eqn:Hd.
    + rewrite main_update_dragging_state by exact Hd. simpl.
      eexists. reflexivity.
    + exists []. rewrite app_nil_r. unfold main_update. simpl.
      now rewrite Hd.
  - discriminate Hl.
Qed.

(** X3.  The listeners never cancel a callback: through any sequence of
    pointer events and frames, the callbacks that were pending at the
    start are still pending, in their order, before the ones asked for
    since.  A new press, in particular, does not cancel the
    [startSwinging] callbacks of the release before it. *)
Theorem listeners_cancel_no_callback
    (hs : list (Happening num)) (s : State num) :
  forallb is_listener hs = true ->
  exists added, timers (react_all s hs) = timers s ++ added.
Proof.
  revert s. induction hs as [ | h hs IH]; intros s H; simpl in *.
  - exists []. now rewrite app_nil_r.
  - apply andb_prop in H. destruct H as [Hh Hhs].
    destruct (react_listener_timers s h Hh) as [a Ha].
    destruct (IH (react s h) Hhs) as [b Hb].
    exists (a ++ b). unfold react_all in *. now rewrite Hb, Ha, app_assoc.
Qed.

(** X4.  During a drag the frames pile callbacks up: each frame asks
    for one [setAngleFromMouse] per pendulum, [index * 30] ms later, and
    sets no angle itself, so [n] frames leave [n] times the row's length
    more callbacks pending, and the pendulums as they were. *)
Theorem frames_of_a_drag_pile_up_callbacks
    (times : list num) (s : State num) :
  isDragging s = true ->
  let s' := fold_left animationFrame times s in
  isDragging s' = true
  /\ pendulums s' = pendulums s
  /\ timers s'
     = timers s
       ++ concat (repeat
                    (cascade setAngleFromMouse_callback 30
                       (length (pendulums s)))
                    (length times)).
Proof.
  revert s. induction times as [ | time times IH]; intros s Hd; simpl.
  - now rewrite app_nil_r.
  - destruct (animationFrame_dragging s time Hd) as (Hd' & Hp & Ht).
    destruct (IH (animationFrame s time) Hd') as (IHd & IHp & IHt).
    rewrite IHd, IHp, IHt, Hp, Ht, <- app_assoc. repeat split.
Qed.

(** X5.  The clock's origin is set by the first frame and by nothing
    else: once a frame has run, [startTime] is the time of the first
    frame ever (the one it already held, or this frame's) whatever
    happens afterwards: pointer events, frames, callbacks.  Every
    frame leaves its own time in [lastFrameTime]. *)
Theorem startTime_is_set_by_the_first_frame
    (hs : list (Happening num)) (s : State num) (time : num) :
  let s' := react_all (react s (frame time)) hs in
  startTime s'
  = Some match startTime s with Some t0 => t0 | None => time end
  /\ lastFrameTime (react s (frame time)) = Some time.
Proof.
  cbv zeta. split.
  - apply react_all_startTime. simpl. rewrite animationFrame_clock. cbv zeta.
    now rewrite main_update_startTime.
  - apply animationFrame_kept.
Qed.

(** X6.  The callbacks a frame of a drag asks for change nothing when
    they run after the pointer event whose position they read: after
    [onMouseMove] during a drag, or after [onMouseDown] in any state,
    in the same window, the state after such a callback is the state
    before it ([setAngleFromMouse] computes from the pointer alone, and
    the handler has already applied it to every pendulum). *)
Theorem drag_callbacks_change_nothing
    (window : Window num) (s : State num) (event : MouseEvent num)
    (now : num) (index : nat) :
  isDragging s = true ->
  let moved := onMouseMove window s event in
  run_callback window now moved (setAngleFromMouse_callback index) = moved
  /\ (forall before : State num,
        let pressed := onMouseDown window before event in
        run_callback window now pressed (setAngleFromMouse_callback index)
        = pressed).
Proof.
  intros Hd. cbv zeta. split; [ | intros before].
  - unfold onMouseMove. rewrite Hd. unfold run_callback, set_pendulums. simpl.
    rewrite at_index_fixed; [reflexivity | ].
    apply Forall_forall. intros p Hp. apply in_map_iff in Hp.
    destruct Hp as (q & <- & _). reflexivity.
  - unfold onMouseDown, run_callback, set_pendulums. simpl.
    rewrite at_index_fixed; [reflexivity | ].
    apply Forall_forall. intros p Hp. apply in_map_iff in Hp.
    destruct Hp as (q & <- & _). reflexivity.
Qed.

(** X7.  Whatever happens, the row stays as it was built: the number of
    pendulums, and for each its [frequency], its [amplitude], the
    position of its two meshes and their rotations about x and y never
    change; only the rotation about z and the motion state do. *)
Theorem the_row_is_never_rebuilt (hs : list (Happening num)) (s : State num) :
  map built (pendulums (react_all s hs)) = map built (pendulums s)
  /\ length (pendulums (react_all s hs)) = length (pendulums s).
Proof.
  assert (H : map built (pendulums (react_all s hs)) = map built (pendulums s)).
  { revert s. induction hs as [ | h hs IH]; intros s; simpl.
    - reflexivity.
    - unfold react_all in *. simpl. now rewrite IH, react_built. }
  split; [exact H | ].
  now rewrite <- (length_map built), H, length_map.
Qed.

(** X8.  In every state the program can reach from the start of [main],
    through any pointer events, frames and callbacks, every pendulum is
    drawn at its angle: the rotation of its string and of its ball are
    the pendulum's [angle]. *)
Theorem display_mirrors_in_every_state (hs : list (Happening num)) :
  Forall (fun p =>
            THREE.z (THREE.rotation (string p)) = angle p
            /\ THREE.z (THREE.rotation (ball p)) = angle p)
         (pendulums (react_all initial hs)).
Proof.
  assert (H : forall s, Forall mirrored (pendulums s) ->
                        Forall mirrored (pendulums (react_all s hs))).
  { induction hs as [ | h hs IH]; intros s Hs; simpl.
    - exact Hs.
    - apply IH. now apply react_mirrored. }
  eapply Forall_impl; [ | apply (H initial)].
  - intros p Hp. unfold mirrored, Spec.displayed in Hp.
    now injection Hp as -> ->.
  - change (pendulums initial) with (@row num N). unfold row.
    apply Forall_mirrored_map. reflexivity.
Qed.

Lemma nth_error_cascade (cb : nat -> Callback) (step : Z) (n index : nat) :
  (index < n)%nat ->
  nth_error (cascade cb step n) index
  = Some {| callback := cb index; delay := Z.of_nat index * step |}.
Proof.
  intros H. unfold cascade. rewrite nth_error_map.
  rewrite nth_error_seq.
  destruct (Nat.ltb_spec index n) as [_ | H']; [reflexivity | lia].
Qed.

(** X10.  A press does not call off the release before it.  After a
    release, a new press stops pendulum [index] and sets its angle; when
    the [startSwinging] callback of the first release then runs, the
    pendulum swings again although the drag is on.  The frames of the
    drag do not update it, so at the first frame after the next release
    it is stepped from the [lastUpdateTime] that callback gave it: over
    the whole time since then, before the callback of the new release
    has run. *)
Theorem a_press_does_not_cancel_the_release
    (window window' : Window num) (s : State num)
    (e1 e2 e3 : MouseEvent num) (now time : num)
    (index : nat) (p : Pendulum num) :
  nth_error (pendulums s) index = Some p ->
  let k := (length (timers s) + index)%nat in
  let s1 :=
    react_all s [mouseup e1; mousedown window e2; timeout window' now k] in
  let started :=
    startSwinging
      (setAngleFromMouse window (stopSwinging p) (clientX e2) (clientY e2))
      (since (startTime s) now) in
  isDragging s1 = true
  /\ nth_error (pendulums s1) index = Some started
  /\ isSwinging started = true
  /\ lastUpdateTime started = since (startTime s) now
  /\ let s2 := react_all s1 [mouseup e3; frame time] in
     nth_error (pendulums s2) index
     = Some (update started (since (startTime s2) time)).
Proof.
  intros Hp. cbv zeta.
  assert (Hi : (index < length (pendulums s))%nat).
  { apply nth_error_Some. now rewrite Hp. }
  assert (H1 : isDragging (react_all s [mouseup e1; mousedown window e2;
                 timeout window' now (length (timers s) + index)%nat]) = true
               /\ nth_error (pendulums (react_all s [mouseup e1;
                    mousedown window e2;
                    timeout window' now (length (timers s) + index)%nat])) index
                  = Some (startSwinging
                     (setAngleFromMouse window (stopSwinging p)
                        (clientX e2) (clientY e2))
                     (since (startTime s) now))).
  { simpl. rewrite onMouseUp_state. unfold fire. simpl.
    rewrite nth_error_app2 by lia.
    replace (length (timers s) + index - length (timers s))%nat with index
      by lia.
    rewrite (nth_error_cascade startSwinging_callback 100 _ _ Hi). simpl.
    split; [reflexivity | ].
    rewrite nth_error_at_index, Nat.eqb_refl, nth_error_map, Hp.
    reflexivity. }
  destruct H1 as (Hd & Hn).
  split; [exact Hd | split; [exact Hn | split; [reflexivity | ] ] ].
  split; [reflexivity | ].
  set (s1 := react_all s _) in *.
  change (react_all s1 [mouseup e3; frame time])
    with (animationFrame (onMouseUp s1 e3) time).
  destruct (animationFrame_not_dragging (onMouseUp s1 e3) time)
    as (_ & Hs & Hps & _).
  { now rewrite onMouseUp_state. }
  rewrite Hs, Hps, nth_error_map. rewrite onMouseUp_state. simpl.
  now rewrite Hn.
Qed.

Lemma frames_not_dragging (later : list num) :
  forall (s : State num) (t0 : num),
  isDragging s = false -> startTime s = Some t0 ->
  let s' := fold_left animationFrame later s in
  isDragging s' = false
  /\ startTime s' = Some t0
  /\ pendulums s'
     = map (fun p => Spec.frames p (map (fun time => time - t0) later))
           (pendulums s)
  /\ timers s' = timers s.
Proof.
  induction later as [ | time later IH]; intros s t0 Hd Hs; simpl.
  - repeat split; try assumption. now rewrite map_id.
  - destruct (animationFrame_not_dragging s time Hd) as (Hd' & Hs' & Hp & Ht).
    rewrite Hs in Hs', Hp.
    destruct (IH (animationFrame s time) t0 Hd' Hs') as (IHd & IHs & IHp & IHt).
    rewrite IHd, IHs, IHp, IHt, Hp, Ht, map_map. repeat split.
Qed.

(** X11.  Outside a drag, the frames are the run of [update] on every
    pendulum: after the frames at [time :: later], each pendulum is what
    the calls [update(t - startTime)], [t] through the frame times, make
    of it, [startTime] being the one already set or else the time of the
    first of these frames (its [update] then gets [time - time]).  No
    timer is asked for. *)
Theorem frames_update_every_pendulum
    (time : num) (later : list num) (s : State num) :
  isDragging s = false ->
  let s' := fold_left animationFrame (time :: later) s in
  let start := match startTime s with Some t0 => t0 | None => time end in
  pendulums s'
  = map (fun p =>
           Spec.frames p (map (fun time => time - start) (time :: later)))
        (pendulums s)
  /\ timers s' = timers s
  /\ isDragging s' = false.
Proof.
  intros Hd. cbv zeta. simpl.
  destruct (animationFrame_not_dragging s time Hd) as (Hd' & Hs' & Hp & Ht).
  destruct (frames_not_dragging later (animationFrame s time) _ Hd' Hs')
    as (IHd & _ & IHp & IHt).
  rewrite IHp, IHt, IHd, Hp, Ht, map_map. repeat split.
Qed.

Lemma update_idle (p : Pendulum num) (totalTime : num) :
  isSwinging (update p totalTime) = isSwinging p
  /\ (isSwinging p = false ->
      Spec.motion (update p totalTime) = Spec.motion p).
Proof.
  unfold update, Spec.motion.
  destruct (isSwinging p) eqn:E; simpl; rewrite ?E; split; try reflexivity.
  intros H. discriminate H.
Qed.

Lemma Forall2_idle_refl (l : list (Pendulum num)) :
  Forall2 (fun p p' => isSwinging p' = isSwinging p
                       /\ (isSwinging p = false ->
                           Spec.motion p' = Spec.motion p)) l l.
Proof. induction l; constructor; auto. Qed.

Lemma Forall2_idle_trans (l1 l2 l3 : list (Pendulum num)) :
  Forall2 (fun p p' => isSwinging p' = isSwinging p
                       /\ (isSwinging p = false ->
                           Spec.motion p' = Spec.motion p)) l1 l2 ->
  Forall2 (fun p p' => isSwinging p' = isSwinging p
                       /\ (isSwinging p = false ->
                           Spec.motion p' = Spec.motion p)) l2 l3 ->
  Forall2 (fun p p' => isSwinging p' = isSwinging p
                       /\ (isSwinging p = false ->
                           Spec.motion p' = Spec.motion p)) l1 l3.
Proof.
  intros H. revert l3. induction H as [ | p q l1 l2 [Hs Hm] H IH]; intros l3 H3;
    inversion H3 as [ | q' r l2' l3' [Hs' Hm'] H3']; subst; constructor.
  - split; [congruence | ]. intros E. rewrite Hm' by congruence. now apply Hm.
  - now apply IH.
Qed.

(** X12.  Frames start and stop nothing: through any number of frames,
    during a drag or not, every pendulum keeps its [isSwinging], and one
    that is not swinging keeps its angle, velocity and
    [lastUpdateTime].  A swinging pendulum is never stopped by [update],
    not even at rest. *)
Theorem frames_start_and_stop_nothing (times : list num) (s : State num) :
  Forall2
    (fun p p' =>
       isSwinging p' = isSwinging p
       /\ (isSwinging p = false -> Spec.motion p' = Spec.motion p))
    (pendulums s) (pendulums (fold_left animationFrame times s)).
Proof.
  revert s. induction times as [ | time times IH]; intros s; simpl.
  - apply Forall2_idle_refl.
  - eapply Forall2_idle_trans; [ | apply IH].
    destruct (isDragging s) eqn:Hd.
    + destruct (animationFrame_dragging s time Hd) as (_ & -> & _).
      apply Forall2_idle_refl.
    + destruct (animationFrame_not_dragging s time Hd) as (_ & _ & -> & _).
      apply Forall2_map_same. intros p. apply update_idle.
Qed.

Lemma In_remove_nth {A : Type} (l : list A) (k : nat) (x y : A) :
  In x l -> nth_error l k = Some y -> x <> y ->
  In x (firstn k l ++ skipn (S k) l).
Proof.
  revert k. induction l as [ | a l IH]; intros k Hin Hk Hne.
  - destruct Hin.
  - destruct k as [ | k]; simpl in *.
    + injection Hk as ->.
      destruct Hin as [-> | Hin]; [now destruct Hne | exact Hin].
    + destruct Hin as [-> | Hin]; [now left | right; now apply IH].
Qed.

(** What is left to do of a release: every pendulum swings already or
    still has its [startSwinging] callback pending. *)
Lemma react_release_pending (s : State num) (h : Happening num) :
  is_press h = false ->
  isDragging s = false
  /\ (forall index p, nth_error (pendulums s) index = Some p ->
        isSwinging p = true
        \/ exists ms, In {| callback := startSwinging_callback index;
                            delay := ms |} (timers s)) ->
  isDragging (react s h) = false
  /\ (forall index p, nth_error (pendulums (react s h)) index = Some p ->
        isSwinging p = true
        \/ exists ms, In {| callback := startSwinging_callback index;
                            delay := ms |} (timers (react s h))).
Proof.
  intros Hh (Hd & Hinv).
  destruct h as [w e | w e | e | time | w now k]; simpl.
  - discriminate Hh.
  - unfold onMouseMove. rewrite Hd. now split.
  - rewrite onMouseUp_state. simpl. split; [reflexivity | ].
    intros index p Hp. destruct (Hinv index p Hp) as [Hs | (ms & Hin)].
    + now left.
    + right. exists ms. apply in_or_app. now left.
  - destruct (animationFrame_not_dragging s time Hd) as (Hd' & _ & Hps & Ht).
    split; [exact Hd' | ]. rewrite Hps, Ht. intros index p Hp.
    rewrite nth_error_map in Hp.
    destruct (nth_error (pendulums s) index) as [q | ] eqn:Hq;
      [ | discriminate Hp].
    injection Hp as <-. destruct (update_idle q (time - match startTime s with
                                                      | Some t0 => t0
                                                      | None => time
                                                      end)) as (Hsw & _).
    rewrite Hsw. now apply Hinv.
  - pose proof (fire_kept w now s k) as Hk. cbv zeta in Hk.
    injection Hk as Hk _ _ _ _ _. split; [now rewrite Hk | ].
    unfold fire. destruct (nth_error (timers s) k) as [[cb ms0] | ] eqn:Ht;
      [ | exact Hinv].
    intros index p Hp.
    assert (Hkeep : forall ms,
              cb <> startSwinging_callback index ->
              In {| callback := startSwinging_callback index; delay := ms |}
                 (timers s) ->
              In {| callback := startSwinging_callback index; delay := ms |}
                 (firstn k (timers s) ++ skipn (S k) (timers s))).
    { intros ms Hcb Hin. apply (In_remove_nth _ _ _ _ Hin Ht).
      intros E. apply Hcb. now injection E. }
    destruct cb as [i | i]; simpl in Hp |- *;
      rewrite nth_error_at_index in Hp;
      destruct (Nat.eqb_spec index i) as [-> | Hne];
      destruct (nth_error (pendulums s) _) as [q | ] eqn:Hq;
      try discriminate Hp; simpl in Hp; injection Hp as <-.
    + destruct (Hinv _ _ Hq) as [Hs | (ms & Hin)]; [now left | ].
      right. exists ms. apply Hkeep; [discriminate | exact Hin].
    + destruct (Hinv _ _ Hq) as [Hs | (ms & Hin)]; [now left | ].
      right. exists ms. apply Hkeep; [discriminate | exact Hin].
    + now left.
    + destruct (Hinv _ _ Hq) as [Hs | (ms & Hin)]; [now left | ].
      right. exists ms. apply Hkeep; [ | exact Hin].
      intros E. apply Hne. now injection E.
Qed.

Lemma row_at_rest (totalTime : num) :
  map (fun p => update p totalTime) (@row num N) = row.
Proof. unfold row. rewrite map_map. apply map_ext. reflexivity. Qed.

(** X13.  Nothing moves before the first press: from the start of
    [main], through any frames and pointer moves, the row is the one
    [main] built (every pendulum at angle 0, not swinging), no callback
    is pending and no drag is on.  A pointer move with the button up is
    ignored, its position not even recorded. *)
Theorem the_row_rests_until_the_first_press (hs : list (Happening num)) :
  forallb is_passive hs = true ->
  let s := react_all initial hs in
  pendulums s = row
  /\ timers s = []
  /\ isDragging s = false
  /\ (lastMouseX s, lastMouseY s) = (lit 0, lit 0).
Proof.
  intros H. cbv zeta.
  assert (Hgen : forall s : State num,
            isDragging s = false /\ pendulums s = row /\ timers s = []
            /\ (lastMouseX s, lastMouseY s) = (lit 0, lit 0) ->
            isDragging (react_all s hs) = false
            /\ pendulums (react_all s hs) = row
            /\ timers (react_all s hs) = []
            /\ (lastMouseX (react_all s hs), lastMouseY (react_all s hs))
               = (lit 0, lit 0)).
  { induction hs as [ | h hs IH]; intros s Hs; [exact Hs | ].
    simpl in H. apply andb_prop in H. destruct H as [Hh Hhs].
    change (react_all s (h :: hs)) with (react_all (react s h) hs).
    apply (IH Hhs). destruct Hs as (Hd & Hp & Ht & Hm).
    destruct h as [w e | w e | e | time | w now k]; try discriminate Hh;
      simpl.
    - unfold onMouseMove. rewrite Hd. auto.
    - destruct (animationFrame_not_dragging s time Hd) as (Hd' & _ & Hp' & Ht').
      rewrite Hd', Hp', Ht', Hp, Ht, row_at_rest.
      repeat split.
      destruct (animationFrame_kept s time) as (Hk & _). cbv zeta in Hk.
      injection Hk as _ -> -> _. exact Hm. }
  destruct (Hgen initial) as (Hd & Hp & Ht & Hm).
  - repeat split.
  - auto.
Qed.
End Controller.

(** ** The kinematic variant's frame loop *)
Section Kinematic_main.
Context {num : Type} {N : Number num}.
Local Open Scope num_scope.
Import KinematicMain.

Lemma kinematic_animationFrame (s : State num) (time : num) :
  let start := match startTime s with Some t0 => t0 | None => time end in
  animationFrame s time
  = {| pendulums :=
         map (fun p => Kinematic.update p (time - start)) (pendulums s);
       startTime := Some start;
       lastFrameTime := Some time |}.
Proof. destruct s as [ps [t0 | ] [t1 | ]]; reflexivity. Qed.

Lemma kinematic_update_overrides (p : Kinematic.Pendulum num) (t t' : num) :
  Kinematic.update (Kinematic.update p t) t' = Kinematic.update p t'.
Proof. reflexivity. Qed.

Lemma last_cons_default {A : Type} (l : list A) (a d : A) :
  last (a :: l) d = last l a.
Proof.
  revert a d. induction l as [ | b l IH]; intros a d; [reflexivity | ].
  change (last (a :: b :: l) d) with (last (b :: l) d).
  rewrite IH. symmetry. apply IH.
Qed.

(** X16.  Kinematic variant: what a run of frames leaves on display
    depends on the first and the last frame only.  After the frames at
    [time :: later] every pendulum is as one [update(latest - start)]
    makes it, [latest] the time of the last frame and [start] the
    [startTime] already set or else the time of the first of these
    frames; the frames in between leave no trace. *)
Theorem kinematic_frames_show_the_elapsed_time
    (time : num) (later : list num) (s : State num) :
  let start := match startTime s with Some t0 => t0 | None => time end in
  let latest := last later time in
  run s (time :: later)
  = {| pendulums :=
         map (fun p => Kinematic.update p (latest - start)) (pendulums s);
       startTime := Some start;
       lastFrameTime := Some latest |}.
Proof.
  cbv zeta. unfold run. simpl. rewrite kinematic_animationFrame. cbv zeta.
  generalize (match startTime s with Some t0 => t0 | None => time end).
  intros start. revert time. generalize (pendulums s) as ps.
  induction later as [ | t later IH]; intros ps time.
  - reflexivity.
  - cbn [fold_left]. rewrite kinematic_animationFrame. cbv zeta.
    simpl startTime. simpl pendulums. rewrite map_map.
    rewrite (map_ext _ (fun p => Kinematic.update p (t - start)))
      by (intros p; apply kinematic_update_overrides).
    rewrite (IH ps t), last_cons_default. reflexivity.
Qed.
End Kinematic_main.

(** ** On doubles *)
Section More_doubles.
Local Open Scope float_scope.
Import Binary64.

Lemma sub_zero_r (x : float) : x - 0 = x.
Proof.
  apply Prim2SF_inj. rewrite sub_spec.
  change (Prim2SF 0) with (S754_zero false).
  destruct (Prim2SF x) as [[ | ] | [ | ] | | s m e]; reflexivity.
Qed.

Lemma sub_self_finite (t : float) : is_finite t = true -> t - t = 0.
Proof.
  rewrite is_finite_Prim2SF. intros H. apply Prim2SF_inj. rewrite sub_spec.
  change (Prim2SF 0) with (S754_zero false).
  destruct (Prim2SF t) as [[ | ] | [ | ] | | s m e]; try discriminate H;
    try reflexivity.
  apply SFsub_self.
Qed.

Lemma div_zero_1000 (x : float) : is_zero x = true -> is_zero (x / 1000) = true.
Proof.
  rewrite !is_zero_Prim2SF, div_spec.
  destruct (Prim2SF x) as [[ | ] | | | ]; try discriminate; reflexivity.
Qed.

Lemma digits2_pos_shift52 (m : positive) :
  Z.pos (digits2_pos (4503599627370496 * m)) = (Z.pos (digits2_pos m) + 52)%Z.
Proof.
  cbn [Pos.mul digits2_pos]. rewrite !Pos2Z.inj_succ. lia.
Qed.

Lemma shr_52 (m : positive) :
  iter_pos shr_1 52
    {| shr_m := Z.pos (4503599627370496 * m); shr_r := false; shr_s := false |}
  = {| shr_m := Z.pos m; shr_r := false; shr_s := false |}.
Proof. reflexivity. Qed.

Lemma SFmul_one (s : bool) (m : positive) (e : Z) :
  valid_binary (S754_finite s m e) = true ->
  SF64mul (S754_finite s m e) (S754_finite false 4503599627370496 (-52))
  = S754_finite s m e.
Proof.
  unfold valid_binary, bounded, canonical_mantissa. intros H.
  apply andb_prop in H. destruct H as [Hc He].
  apply Z.eqb_eq in Hc. apply Z.leb_le in He.
  unfold SF64mul, SFmul. rewrite xorb_false_r, Pos.mul_comm.
  unfold binary_round_aux, shr_fexp.
  change (Zdigits2 (Z.pos (4503599627370496 * m)))
    with (Z.pos (digits2_pos (4503599627370496 * m))).
  rewrite digits2_pos_shift52.
  replace (Z.pos (digits2_pos m) + 52 + (e + -52))%Z
    with (Z.pos (digits2_pos m) + e)%Z by lia.
  rewrite Hc. replace (e - (e + -52))%Z with 52%Z by lia.
  unfold shr at 1. cbn [shr_record_of_loc]. rewrite shr_52.
  cbn [shr_m loc_of_shr_record shr_r shr_s round_nearest_even].
  replace (e + -52 + 52)%Z with e by lia.
  cbn [Zdigits2]. rewrite Hc, Z.sub_diag. cbn [shr shr_record_of_loc shr_m].
  apply Z.leb_le in He. now rewrite He.
Qed.

Lemma mul_one_r (x : float) : x * 1 = x.
Proof.
  apply Prim2SF_inj. rewrite mul_spec.
  change (Prim2SF 1) with (S754_finite false 4503599627370496 (-52)).
  pose proof (Prim2SF_valid x) as Hv.
  destruct (Prim2SF x) as [[ | ] | [ | ] | | s m e]; try reflexivity.
  now apply SFmul_one.
Qed.
End More_doubles.

Section Controller_on_doubles.
Local Open Scope float_scope.
Import Binary64 Physics.

Variables sin cos : float -> float.

Let N64 : Number float := binary64 sin cos.
Local Existing Instance N64.

(** X14.  On doubles: a callback of a release that runs before the
    first frame (when [startTime] is still [null], which the
    subtraction reads as 0) leaves [performance.now()] itself in
    [lastUpdateTime]; the first frame then calls [update(time - time)],
    that is [update(0)] for a finite [time], and the pendulum is stepped
    over [(0 - now) / 1000] seconds: backwards by the whole age of the
    page. *)
Theorem release_before_the_first_frame_steps_backwards
    (window : Window float) (s : State float) (now time : float)
    (index : nat) (p : Pendulum float) :
  startTime s = None ->
  isDragging s = false ->
  is_finite time = true ->
  nth_error (pendulums s) index = Some p ->
  let released := run_callback window now s (startSwinging_callback index) in
  let s' := animationFrame released time in
  let deltaTime := (0 - now) / 1000 in
  let acceleration := - 9.81 / 8 * sin (angle p) in
  exists p',
    nth_error (pendulums s') index = Some p'
    /\ isSwinging p' = true
    /\ lastUpdateTime p' = 0
    /\ velocity p' = (0 + acceleration * deltaTime) * 0.99995
    /\ angle p' = angle p + (0 + acceleration * deltaTime) * deltaTime.
Proof.
  intros Hs Hd Ht Hp. cbv zeta.
  destruct (animationFrame_not_dragging
              (run_callback window now s (startSwinging_callback index)) time)
    as (_ & _ & Hps & _); [exact Hd | ].
  rewrite Hps. simpl startTime. rewrite Hs.
  change (@sub float N64 time time) with (time - time).
  rewrite (sub_self_finite time Ht).
  simpl pendulums. rewrite nth_error_map, nth_error_at_index, Nat.eqb_refl, Hp.
  rewrite Hs. unfold since.
  change (@sub float N64 now (lit 0)) with (now - 0).
  rewrite sub_zero_r.
  eexists. split; [reflexivity | ]. repeat split.
Qed.

(** X17.  Kinematic variant on doubles, with a cosine that is 1 at both
    zeros as ECMAScript asks of [Math.cos]: the first frame, at a finite
    time, draws every pendulum of finite frequency at exactly its
    amplitude; whatever their frequencies, all start in phase. *)
Theorem kinematic_row_starts_in_phase
    (s : KinematicMain.State float) (time : float) :
  cos 0 = 1 ->
  cos (-0) = 1 ->
  KinematicMain.startTime s = None ->
  is_finite time = true ->
  forallb (fun p => is_finite (Kinematic.frequency p))
          (KinematicMain.pendulums s) = true ->
  Forall2
    (fun p p' =>
       THREE.z (THREE.rotation (Kinematic.string p')) = Kinematic.amplitude p
       /\ THREE.z (THREE.rotation (Kinematic.ball p')) = Kinematic.amplitude p)
    (KinematicMain.pendulums s)
    (KinematicMain.pendulums (KinematicMain.animationFrame s time)).
Proof.
  intros Hp Hn Hs Ht Hf. rewrite kinematic_animationFrame. cbv zeta.
  rewrite Hs. simpl KinematicMain.pendulums.
  change (@sub float N64 time time) with (time - time).
  rewrite (sub_self_finite time Ht).
  induction (KinematicMain.pendulums s) as [ | p ps IH]; simpl; constructor.
  - simpl in Hf. apply andb_prop in Hf. destruct Hf as [Hfp _].
    assert (Ha : Kinematic.update_angle p 0 = Kinematic.amplitude p).
    { unfold Kinematic.update_angle.
      change (Kinematic.amplitude p
              * cos (Kinematic.frequency p * 0 / 1000) = Kinematic.amplitude p).
      assert (Hz : is_zero (Kinematic.frequency p * 0 / 1000) = true)
        by (apply div_zero_1000, mul_zero_r; [exact Hfp | reflexivity]).
      destruct (is_zero_cases _ Hz) as [-> | ->]; rewrite ?Hp, ?Hn;
        apply mul_one_r. }
    split; exact Ha.
  - apply IH. simpl in Hf. apply andb_prop in Hf. now destruct Hf.
Qed.
End Controller_on_doubles.

(** ** The program on a run *)
Section Program_runs.
Local Open Scope float_scope.
Import Binary64 Physics Page.
Local Existing Instance js.

Lemma listeners_cancel_no_callback_run :
  let released := onMouseUp pressed {| clientX := 960; clientY := 540 |} in
  exists added,
    timers (react_all released
              [mousedown full_hd {| clientX := 1440; clientY := 540 |};
               frame 16;
               mousemove full_hd {| clientX := 1500; clientY := 540 |};
               mouseup {| clientX := 1500; clientY := 540 |}])
    = timers released ++ added.
Proof.
  cbv zeta. apply listeners_cancel_no_callback. reflexivity.
Defined.

Lemma frames_of_a_drag_pile_up_callbacks_run :
  isDragging pressed = true
  /\ length (timers (fold_left animationFrame [16; 33; 50] pressed)) = 36%nat.
Proof.
  split; [reflexivity | ].
  destruct (frames_of_a_drag_pile_up_callbacks [16; 33; 50] pressed eq_refl)
    as (_ & _ & Ht).
  rewrite Ht. reflexivity.
Defined.

Lemma drag_callbacks_change_nothing_run :
  let moved :=
    onMouseMove full_hd pressed {| clientX := 1440; clientY := 540 |} in
  isDragging pressed = true
  /\ run_callback full_hd 1060 moved (setAngleFromMouse_callback 2) = moved.
Proof.
  split; [reflexivity | ].
  exact (proj1 (drag_callbacks_change_nothing full_hd pressed
                  {| clientX := 1440; clientY := 540 |} 1060 2 eq_refl)).
Defined.


Lemma a_press_does_not_cancel_the_release_run :
  let s1 :=
    react_all initial
      [mouseup {| clientX := 960; clientY := 540 |};
       mousedown full_hd {| clientX := 1440; clientY := 540 |};
       timeout full_hd 2300 3] in
  nth_error (pendulums initial) 3 = Some (pendulum_number 3%float)
  /\ isDragging s1 = true
  /\ option_map isSwinging (nth_error (pendulums s1) 3) = Some true.
Proof.
  cbv zeta.
  assert (Hp : nth_error (pendulums initial) 3 = Some (pendulum_number 3%float))
    by reflexivity.
  split; [exact Hp | ].
  destruct (a_press_does_not_cancel_the_release full_hd full_hd initial
              {| clientX := 960; clientY := 540 |}
              {| clientX := 1440; clientY := 540 |}
              {| clientX := 1440; clientY := 540 |}
              2300 2500 3 (pendulum_number 3%float) Hp)
    as (Hd & Hn & _).
  split; [exact Hd | ].
  change (length (timers initial) + 3)%nat with 3%nat in Hn.
  rewrite Hn. reflexivity.
Defined.

Lemma frames_update_every_pendulum_run :
  let s' := fold_left animationFrame [0; 16; 33] initial in
  isDragging initial = false
  /\ timers s' = []
  /\ isDragging s' = false.
Proof.
  cbv zeta. split; [reflexivity | ].
  exact (proj2 (frames_update_every_pendulum 0 [16; 33] initial eq_refl)).
Defined.

Lemma the_row_rests_until_the_first_press_run :
  let hs :=
    [frame 0; mousemove full_hd {| clientX := 1440; clientY := 540 |};
     frame 16] in
  forallb is_passive hs = true
  /\ pendulums (react_all initial hs) = row.
Proof.
  cbv zeta. split; [reflexivity | ].
  exact (proj1 (the_row_rests_until_the_first_press
                  [frame 0;
                   mousemove full_hd {| clientX := 1440; clientY := 540 |};
                   frame 16] eq_refl)).
Defined.

Lemma release_before_the_first_frame_steps_backwards_run :
  let s' :=
    animationFrame
      (run_callback full_hd 1500 initial (startSwinging_callback 0)) 16 in
  (startTime initial = None /\ isDragging initial = false
   /\ is_finite 16 = true
   /\ nth_error (pendulums initial) 0 = Some (pendulum_number 0%float))
  /\ exists p',
       nth_error (pendulums s') 0 = Some p'
       /\ isSwinging p' = true
       /\ lastUpdateTime p' = 0.
Proof.
  cbv zeta.
  assert (Hp : nth_error (pendulums initial) 0 = Some (pendulum_number 0%float))
    by reflexivity.
  split; [repeat split | ].
  destruct (release_before_the_first_frame_steps_backwards
              taylor_sin taylor_cos full_hd initial 1500 16 0
              (pendulum_number 0%float) eq_refl eq_refl eq_refl Hp)
    as (p' & Hn & Hs & Ht & _).
  exists p'. split; [exact Hn | split; [exact Hs | exact Ht] ].
Defined.

Lemma kinematic_row_starts_in_phase_run :
  let s :=
    {| KinematicMain.pendulums := [kinematic_pendulum];
       KinematicMain.startTime := None;
       KinematicMain.lastFrameTime := None |} in
  (taylor_cos 0 = 1 /\ taylor_cos (-0) = 1 /\ is_finite 16 = true)
  /\ Forall2
       (fun p p' =>
          THREE.z (THREE.rotation (Kinematic.string p')) = Kinematic.amplitude p
          /\ THREE.z (THREE.rotation (Kinematic.ball p'))
             = Kinematic.amplitude p)
       [kinematic_pendulum]
       (KinematicMain.pendulums (KinematicMain.animationFrame s 16)).
Proof.
  cbv zeta. split; [repeat split | ].
  exact (kinematic_row_starts_in_phase taylor_sin taylor_cos
           {| KinematicMain.pendulums := [kinematic_pendulum];
              KinematicMain.startTime := None;
              KinematicMain.lastFrameTime := None |} 16
           eq_refl eq_refl eq_refl eq_refl eq_refl).
Defined.
End Program_runs.

